(** * LABTEST_AI: the genetic algorithm (q1) and the rule engine (q2)

    A shallow embedding of the two Python programs that carry logic of
    their own:

    - [q2_ai_lab_test_.py]: [OPS], [evaluate_condition], [rule_matches],
      [run_rules], [DEFAULT_RULES];
    - [q1_ai_lab_test.py]: [fitness], [init_population],
      [tournament_selection], [crossover], [mutation], [run_ga].

    Python exceptions are values of [result]; the NumPy generator and
    [np.argsort] are interfaces ([Generator], [ArgSort]) whose laws are the
    documented contracts of the NumPy calls the programs make. *)

From Stdlib Require Import ZArith QArith Lia.
From Stdlib Require SpecFloat.
From stdpp Require Import base option list gmap strings sorting.

(** ** Exceptions and results *)

Inductive exn : Type :=
  | TypeError
  | ValueError
  | IndexError.

Inductive result (A : Type) : Type :=
  | Ok (a : A)
  | Raise (e : exn).

Arguments Ok {A} a.
Arguments Raise {A} e.

Definition is_Ok {A} (r : result A) : Prop := ∃ a, r = Ok a.

(** ** q2: Python values held by facts and condition literals *)

Local Open Scope Z_scope.

Inductive value : Type :=
  | VInt (n : Z)
  | VBool (b : bool)
  | VStr (s : string)
  | VNone.

(** [bool] is a subclass of [int] in Python: [True == 1] and [True < 2]. *)
Definition as_num (v : value) : option Z :=
  match v with
  | VInt n => Some n
  | VBool b => Some (Z.b2z b)
  | _ => None
  end.

(** [operator.eq]: never raises on these types. *)
Definition py_eq (a b : value) : bool :=
  match as_num a, as_num b with
  | Some x, Some y => x =? y
  | _, _ =>
      match a, b with
      | VStr s, VStr t => String.eqb s t
      | VNone, VNone => true
      | _, _ => false
      end
  end.

(** The four ordering operators: numbers with numbers, strings with
    strings (code point order); any other pair raises [TypeError]. *)
Definition py_order (num : Z → Z → bool) (str : string → string → bool)
    (a b : value) : result bool :=
  match as_num a, as_num b with
  | Some x, Some y => Ok (num x y)
  | _, _ =>
      match a, b with
      | VStr s, VStr t => Ok (str s t)
      | _, _ => Raise TypeError
      end
  end.

Definition op_eq (a b : value) : result bool := Ok (py_eq a b).
Definition op_ne (a b : value) : result bool := Ok (negb (py_eq a b)).
Definition op_gt : value → value → result bool :=
  py_order Z.gtb (λ s t, String.ltb t s).
Definition op_ge : value → value → result bool :=
  py_order Z.geb (λ s t, String.leb t s).
Definition op_lt : value → value → result bool :=
  py_order Z.ltb String.ltb.
Definition op_le : value → value → result bool :=
  py_order Z.leb String.leb.

Definition OPS_table : list (string * (value → value → result bool)) :=
  [ ("==", op_eq); ("!=", op_ne); (">", op_gt);
    (">=", op_ge); ("<", op_lt); ("<=", op_le) ].

(** The module-level dict [OPS]. *)
Definition OPS : gmap string (value → value → result bool) :=
  list_to_map OPS_table.

(** ** q2: rules *)

Record action : Type := Action {
  mode : string;
  fan_speed : string;
  setpoint : option Z;
  reason : string
}.

(** A condition is the list [[field, op, value]]. *)
Definition condition : Type := string * string * value.

Record rule : Type := Rule {
  name : string;
  priority : Z;
  conditions : list condition;
  rule_action : action
}.

Definition evaluate_condition (facts : gmap string value) (cond : condition)
    : result bool :=
  let '(field, op, value) := cond in
  match facts !! field with
  | None => Ok false
  | Some x =>
      match OPS !! op with
      | None => Ok false
      | Some f => f x value
      end
  end.

(** [all(evaluate_condition(facts, c) for c in conds)]: the generator is
    consumed left to right and [all] stops at the first [False]. *)
Fixpoint all_conditions (facts : gmap string value) (conds : list condition)
    : result bool :=
  match conds with
  | [] => Ok true
  | c :: cs =>
      match evaluate_condition facts c with
      | Raise e => Raise e
      | Ok false => Ok false
      | Ok true => all_conditions facts cs
      end
  end.

Definition rule_matches (facts : gmap string value) (r : rule) : result bool :=
  all_conditions facts (conditions r).

(** [[r for r in rules if rule_matches(facts, r)]] *)
Fixpoint matching (facts : gmap string value) (rules : list rule)
    : result (list rule) :=
  match rules with
  | [] => Ok []
  | r :: rs =>
      match rule_matches facts r with
      | Raise e => Raise e
      | Ok b =>
          match matching facts rs with
          | Raise e => Raise e
          | Ok ms => Ok (if b then r :: ms else ms)
          end
      end
  end.

(** [list.sort(key=lambda r: r["priority"], reverse=True)]. Python's sort
    is stable and stays stable under [reverse=True], so its result is the
    one list that is a permutation of the input, has non-increasing
    priorities and keeps rules of equal priority in their input order.
    [insert_rule] puts a rule in front of a list whose rules all came
    after it. *)
Fixpoint insert_rule (r : rule) (l : list rule) : list rule :=
  match l with
  | [] => [r]
  | y :: l' =>
      if priority y <=? priority r then r :: y :: l'
      else y :: insert_rule r l'
  end.

Definition sort_by_priority (l : list rule) : list rule :=
  foldr insert_rule [] l.

Definition default_action : action :=
  Action "OFF" "AUTO" None "No rule satisfied".

Definition run_rules (facts : gmap string value) (rules : list rule)
    : result (action * list rule) :=
  match matching facts rules with
  | Raise e => Raise e
  | Ok [] => Ok (default_action, [])
  | Ok (m :: ms) =>
      match sort_by_priority (m :: ms) with
      | [] => Raise IndexError
      | best :: rest => Ok (rule_action best, best :: rest)
      end
  end.

Definition DEFAULT_RULES : list rule :=
  [ Rule "Windows open → AC OFF" 110
      [("windows_open", "==", VBool true)]
      (Action "OFF" "AUTO" None "Cooling disabled because windows are open");
    Rule "Empty house → Eco mode" 95
      [("occupancy", "==", VStr "EMPTY"); ("temperature", ">=", VInt 24)]
      (Action "ECO" "LOW" (Some 27) "No occupants, energy saving activated");
    Rule "Hot & humid while occupied" 85
      [("occupancy", "==", VStr "OCCUPIED"); ("temperature", ">=", VInt 30);
       ("humidity", ">=", VInt 70)]
      (Action "COOL" "HIGH" (Some 23) "High temperature and humidity detected");
    Rule "Hot while occupied" 75
      [("occupancy", "==", VStr "OCCUPIED"); ("temperature", ">=", VInt 28)]
      (Action "COOL" "MEDIUM" (Some 24) "High temperature detected");
    Rule "Warm while occupied" 65
      [("occupancy", "==", VStr "OCCUPIED"); ("temperature", ">=", VInt 26);
       ("temperature", "<", VInt 28)]
      (Action "COOL" "LOW" (Some 25) "Moderately warm environment");
    Rule "Night comfort mode" 80
      [("occupancy", "==", VStr "OCCUPIED"); ("time_of_day", "==", VStr "NIGHT");
       ("temperature", ">=", VInt 26)]
      (Action "SLEEP" "LOW" (Some 26) "Night-time comfort optimization");
    Rule "Too cold → system OFF" 90
      [("temperature", "<=", VInt 22)]
      (Action "OFF" "AUTO" None "Temperature already low") ].

(** The facts the dashboard builds from its five widgets. *)
Definition ui_facts (temperature humidity : Z) (occupancy time_of_day : string)
    (windows_open : bool) : gmap string value :=
  <["temperature" := VInt temperature]>
  (<["humidity" := VInt humidity]>
  (<["occupancy" := VStr occupancy]>
  (<["time_of_day" := VStr time_of_day]>
  (<["windows_open" := VBool windows_open]> ∅)))).

Local Close Scope Z_scope.

(** ** q1: the NumPy calls the genetic algorithm makes *)

(** [rng.random()] returns a float64 in [[0, 1)]. Every finite float is a
    rational and [<] on finite floats is [<] on those rationals, so draws
    and the two probabilities are modelled in [Q]. *)
Definition Qltb (x y : Q) : bool := negb (Qle_bool y x).

(** The generator object [rng = np.random.default_rng(SEED)]. The laws are
    the contract of each call on arguments NumPy accepts; the wrappers
    below raise where NumPy refuses the arguments. *)
Class Generator : Type := {
  rng_state : Type;
  (** [np.random.default_rng(seed)] *)
  default_rng : N → rng_state;
  (** [rng.random()] *)
  rng_random : rng_state → Q * rng_state;
  (** [rng.random(n)] *)
  rng_random_n : nat → rng_state → list Q * rng_state;
  (** [rng.integers(low, high, n)], accepted when [low < high] *)
  rng_integers : Z → Z → nat → rng_state → list Z * rng_state;
  (** [rng.choice(n, k, replace=False)], accepted when [k ≤ n] *)
  rng_choice : nat → nat → rng_state → list nat * rng_state;
  random_unit : ∀ s, (0 <= (rng_random s).1)%Q ∧ ((rng_random s).1 < 1)%Q;
  random_n_length : ∀ n s, length (rng_random_n n s).1 = n;
  random_n_unit : ∀ n s,
    Forall (λ x, (0 <= x)%Q ∧ (x < 1)%Q) (rng_random_n n s).1;
  integers_length : ∀ low high n s, length (rng_integers low high n s).1 = n;
  integers_range : ∀ low high n s, (low < high)%Z →
    Forall (λ x, (low ≤ x < high)%Z) (rng_integers low high n s).1;
  choice_length : ∀ n k s, k ≤ n → length (rng_choice n k s).1 = k;
  choice_NoDup : ∀ n k s, k ≤ n → NoDup (rng_choice n k s).1;
  choice_range : ∀ n k s, k ≤ n → Forall (λ i, i < n) (rng_choice n k s).1
}.

(** [np.argsort(a)] with the default [kind='quicksort'], which NumPy
    documents as not stable: the result lists every index once and reads
    the array in non-decreasing order; the order of equal entries is left
    to the sorting routine. *)
Class ArgSort : Type := {
  argsort : list Z → list nat;
  argsort_perm : ∀ a, argsort a ≡ₚ seq 0 (length a);
  argsort_sorted : ∀ a i j x y vx vy,
    i ≤ j → argsort a !! i = Some x → argsort a !! j = Some y →
    a !! x = Some vx → a !! y = Some vy → (vx ≤ vy)%Z
}.

(** The module-level constants of q1, in the order they are assigned.
    [FITNESS_PEAKS_AT_ONES] and [MAX_FITNESS] (whose line carries a stray
    token) are read nowhere and are left out. *)
Record Config : Type := {
  POP_SIZE : nat;
  GENE_LENGTH : nat;
  MAX_GEN : nat;
  PC : Q;
  PM : Q;
  ELITE : nat;
  TOUR_K : nat;
  SEED : N
}.

(** The constants as the file assigns them. *)
Definition source_config : Config :=
  {| POP_SIZE := 300; GENE_LENGTH := 80; MAX_GEN := 50;
     PC := 9 # 10; PM := 1 # 100; ELITE := 2; TOUR_K := 3; SEED := 42 |}.

(** A chromosome is a row of int64 bits; the population is the 2-D array
    of rows. Row sums stay far below 2^63, so [Z] arithmetic is the
    array's. *)
Notation genome := (list Z) (only parsing).
Notation population := (list (list Z)) (only parsing).

(** A float64 is an IEEE 754 binary64 number: 53 bits of precision,
    exponent of the infinities 1024. *)
Notation float64 := SpecFloat.spec_float (only parsing).

(** The conversion of an int64 to float64, rounded to nearest even. *)
Definition float64_of_Z (z : Z) : float64 :=
  SpecFloat.binary_normalize 53 1024 z 0 false.

(** float64 division *)
Definition float64_div (x y : float64) : float64 := SpecFloat.SFdiv 53 1024 x y.

(** One row of the history DataFrame: an int, an int64 and a float64. *)
Record GenerationRecord : Type := {
  Generation : nat;
  Best_Fitness : Z;
  Average_Fitness : float64
}.

(** What [run_ga] returns: history, best chromosome, its fitness. *)
Definition RunResult : Type := list GenerationRecord * genome * Z.

(** *** Array helpers *)

Definition row_sum (row : genome) : Z := foldr Z.add 0%Z row.

(** [np.sum(pop, axis=1)] *)
Definition fitness (pop : population) : list Z := fmap row_sum pop.

(** [flat.reshape(n, l)] in C order *)
Definition reshape (n l : nat) (flat : list Z) : population :=
  fmap (λ i, take l (drop (i * l) flat)) (seq 0 n).

(** First index and value of the maximum of [x :: l]. *)
Fixpoint argmax_val (x : Z) (l : list Z) : nat * Z :=
  match l with
  | [] => (0, x)
  | y :: l' =>
      let '(j, m) := argmax_val y l' in
      if (x <? m)%Z then (S j, m) else (0, x)
  end.

(** [np.argmax(a)]: the first occurrence of the maximum; an empty array
    raises [ValueError]. *)
Definition argmax (a : list Z) : result nat :=
  match a with
  | [] => Raise ValueError
  | x :: l => Ok (argmax_val x l).1
  end.

(** [a.max()] *)
Definition array_max (a : list Z) : result Z :=
  match a with
  | [] => Raise ValueError
  | x :: l => Ok (foldr Z.max x l)
  end.

(** [a.mean()] of an int64 array: the entries are added up as float64
    and the total is divided by the count. Every running total of
    integers below 2^53 is exact in float64, whatever the order of the
    additions, so the total is the conversion of the integer sum. The
    mean of an empty array is 0/0, a NaN. *)
Definition array_mean (a : list Z) : float64 :=
  float64_div (float64_of_Z (foldr Z.add 0%Z a))
              (float64_of_Z (Z.of_nat (length a))).

(** [a[idx]] with an integer index array: every index must be in range. *)
Fixpoint fancy_index {A} (a : list A) (idx : list nat) : result (list A) :=
  match idx with
  | [] => Ok []
  | i :: idx' =>
      match a !! i with
      | None => Raise IndexError
      | Some x =>
          match fancy_index a idx' with
          | Raise e => Raise e
          | Ok xs => Ok (x :: xs)
          end
      end
  end.

(** [a[-e:]]: for [e = 0] the slice is [a[0:]], the whole array. *)
Definition slice_last {A} (e : nat) (a : list A) : list A :=
  if decide (e = 0) then a else drop (length a - e) a.

(** A slice bound as Python clamps it: a negative bound counts from the
    end. *)
Definition slice_bound (len : nat) (i : Z) : nat :=
  if (i <? 0)%Z then Z.to_nat (Z.max 0 (i + Z.of_nat len))
  else Nat.min (Z.to_nat i) len.

(** [a[i:j]], [a[:j]], [a[i:]] *)
Definition slice {A} (i j : Z) (a : list A) : list A :=
  let lo := slice_bound (length a) i in
  let hi := slice_bound (length a) j in
  take (hi - lo) (drop lo a).
Definition slice_to {A} (j : Z) (a : list A) : list A :=
  take (slice_bound (length a) j) a.
Definition slice_from {A} (i : Z) (a : list A) : list A :=
  drop (slice_bound (length a) i) a.

(** [sorted(v)] on integers *)
Fixpoint insert_sorted (x : Z) (l : list Z) : list Z :=
  match l with
  | [] => [x]
  | y :: l' => if (x <=? y)%Z then x :: y :: l' else y :: insert_sorted x l'
  end.
Definition sorted (v : list Z) : list Z := foldr insert_sorted [] v.

Definition same_width (rows : population) : bool :=
  match rows with
  | [] => true
  | r :: rs => forallb (λ x, length x =? length r) rs
  end.

(** [np.vstack([new_population, elites])]: the Python list becomes a 2-D
    array (the empty list one row of no columns), and the two blocks must
    agree on the number of columns. *)
Definition vstack (new_population : list genome) (elites : population)
    : result population :=
  let top := match new_population with [] => [[]] | _ => new_population end in
  if same_width (top ++ elites) then Ok (top ++ elites) else Raise ValueError.

(** *** The state-and-exception monad of the module-level generator *)

Section GA.
Context {G : Generator} {AS : ArgSort}.
Variable c : Config.

(** A computation reads and advances the global [rng] and either
    returns or raises. *)
Definition M (A : Type) : Type := rng_state → result (A * rng_state).

Definition ret {A} (a : A) : M A := λ s, Ok (a, s).

Definition bind {A B} (m : M A) (f : A → M B) : M B :=
  λ s, match m s with
       | Raise e => Raise e
       | Ok (a, s') => f a s'
       end.

Definition raise {A} (e : exn) : M A := λ _, Raise e.

Definition lift {A} (r : result A) : M A :=
  λ s, match r with
       | Raise e => Raise e
       | Ok a => Ok (a, s)
       end.

(** A subscript [a[i]] with an index that may be out of range. *)
Definition subscript {A} (a : list A) (i : nat) : M A :=
  match a !! i with
  | None => raise IndexError
  | Some x => ret x
  end.

Notation "'let*' x ':=' m 'in' f" := (bind m (λ x, f))
  (at level 10, x name, m at level 100, f at level 200).
Notation "'let*' ' pat ':=' m 'in' f" :=
  (bind m (λ x, match x with pat => f end))
  (at level 10, pat pattern, m at level 100, f at level 200).

(** *** The generator's calls, with the argument checks NumPy makes *)

Definition random : M Q := λ s, Ok (rng_random s).

Definition random_n (n : nat) : M (list Q) := λ s, Ok (rng_random_n n s).

(** [low >= high] raises [ValueError]. *)
Definition integers (low high : Z) (n : nat) : M (list Z) :=
  λ s, if decide (low < high)%Z then Ok (rng_integers low high n s)
       else Raise ValueError.

(** A sample larger than the population raises [ValueError]. *)
Definition choice (n k : nat) : M (list nat) :=
  λ s, if decide (k ≤ n) then Ok (rng_choice n k s) else Raise ValueError.

(** *** The functions of q1 *)

Definition init_population : M population :=
  let* flat := integers 0 2 (POP_SIZE c * GENE_LENGTH c) in
  ret (reshape (POP_SIZE c) (GENE_LENGTH c) flat).

Definition tournament_selection (pop : population) (fit : list Z) : M genome :=
  let* candidates := choice (length pop) (TOUR_K c) in
  let* sub := lift (fancy_index fit candidates) in
  let* best := lift (argmax sub) in
  let* winner := subscript candidates best in
  subscript pop winner.

(** Two-point crossover. The two children are fresh arrays in both
    branches ([np.concatenate], [copy]). *)
Definition crossover (p1 p2 : genome) : M (genome * genome) :=
  let* r := random in
  if Qltb r (PC c) then
    let* cuts := integers 1 (Z.of_nat (GENE_LENGTH c)) 2 in
    match sorted cuts with
    | [p1_idx; p2_idx] =>
        let c1 := slice_to p1_idx p1 ++ slice p1_idx p2_idx p2
                  ++ slice_from p2_idx p1 in
        let c2 := slice_to p1_idx p2 ++ slice p1_idx p2_idx p1
                  ++ slice_from p2_idx p2 in
        ret (c1, c2)
    | _ => raise ValueError
    end
  else ret (p1, p2).

(** [child[flip] ^= 1]. A boolean mask of size 0 is accepted on an
    array of any length and selects nothing; any other mask must be as
    long as the child. *)
Definition mutation (child : genome) : M genome :=
  let* u := random_n (GENE_LENGTH c) in
  let flip := fmap (λ x, Qltb x (PM c)) u in
  if decide (length flip = 0) then ret child
  else if decide (length flip = length child) then
    ret (zip_with (λ (b : Z) (f : bool), if f then Z.lxor b 1 else b) child flip)
  else raise IndexError.

(** The [while len(new_population) < POP_SIZE - ELITE] loop.
    [remaining] is [POP_SIZE - ELITE - len(new_population)], counted
    down: nothing is done at 0; otherwise a pair is bred and [child1]
    appended, and [child2] is mutated and appended only if a place is
    still free. *)
Fixpoint breed (remaining : nat) (pop : population) (fit : list Z)
    (new_population : list genome) : M (list genome) :=
  match remaining with
  | 0 => ret new_population
  | S r =>
      let* parent1 := tournament_selection pop fit in
      let* parent2 := tournament_selection pop fit in
      let* '(child1, child2) := crossover parent1 parent2 in
      let* m1 := mutation child1 in
      match r with
      | 0 => ret (new_population ++ [m1])
      | S r' =>
          let* m2 := mutation child2 in
          breed r' pop fit (new_population ++ [m1; m2])
      end
  end.

(** The elites of a population: [population[np.argsort(fit)[-ELITE:]]] *)
Definition elite_idx (fit : list Z) : list nat :=
  slice_last (ELITE c) (argsort fit).

(** One pass of the [for gen in range(MAX_GEN)] body, from the
    population entering generation [gen]: the history row and the
    population that replaces it. *)
Definition generation (gen : nat) (pop : population)
    : M (GenerationRecord * population) :=
  let fit := fitness pop in
  let* best := lift (array_max fit) in
  let row := {| Generation := gen + 1; Best_Fitness := best;
                Average_Fitness := array_mean fit |} in
  let* elites := lift (fancy_index pop (elite_idx fit)) in
  let* new_population := breed (POP_SIZE c - ELITE c) pop fit [] in
  let* next := lift (vstack new_population elites) in
  ret (row, next).

(** The [for] loop over the generation numbers [gens]. *)
Fixpoint generations (gens : list nat) (pop : population)
    (history : list GenerationRecord)
    : M (population * list GenerationRecord) :=
  match gens with
  | [] => ret (pop, history)
  | gen :: gens' =>
      let* '(row, next) := generation gen pop in
      generations gens' next (history ++ [row])
  end.

(** [run_ga()]. The Streamlit progress bar it updates takes no part in
    the result and is left out. *)
Definition run_ga : M RunResult :=
  let* pop0 := init_population in
  let* '(pop, history) := generations (seq 0 (MAX_GEN c)) pop0 [] in
  let final_fit := fitness pop in
  let* best_index := lift (argmax final_fit) in
  let* best_solution := subscript pop best_index in
  let* best_fitness := subscript final_fit best_index in
  ret (history, best_solution, best_fitness).

(** One execution of the script: the module creates [rng] from [SEED]
    and the button handler calls [run_ga()] once. *)
Definition script : result RunResult :=
  match run_ga (default_rng (SEED c)) with
  | Raise e => Raise e
  | Ok (r, _) => Ok r
  end.

End GA.

(** ** A generator and two sorts that run

    The generator reads its draws from a tape (0 once the tape is read
    through); the two sorts are insertion sorts that differ only in where
    they put equal entries. Both meet the interfaces above, so every
    theorem proved for all generators and sorts can be run on them. *)

Definition tape_next (s : list Z) : Z * list Z :=
  match s with
  | [] => (0%Z, [])
  | x :: s' => (x, s')
  end.

Fixpoint tape_take (n : nat) (s : list Z) : list Z * list Z :=
  match n with
  | 0 => ([], s)
  | S n' =>
      let '(x, s1) := tape_next s in
      let '(xs, s2) := tape_take n' s1 in
      (x :: xs, s2)
  end.

(** A draw in [[0, 1)]: hundredths. *)
Definition to_unit (x : Z) : Q := Qmake (x mod 100) 100.

Definition tape_random (s : list Z) : Q * list Z :=
  let '(x, s') := tape_next s in (to_unit x, s').

Definition tape_random_n (n : nat) (s : list Z) : list Q * list Z :=
  let '(xs, s') := tape_take n s in (fmap to_unit xs, s').

Definition tape_integers (low high : Z) (n : nat) (s : list Z)
    : list Z * list Z :=
  let '(xs, s') := tape_take n s in
  (fmap (λ x, low + x mod (high - low))%Z xs, s').

(** [k] indices out of [n]: the first [k] of [0..n-1] rotated by the
    draw. *)
Definition tape_choice (n k : nat) (s : list Z) : list nat * list Z :=
  let '(x, s') := tape_next s in
  let r := Z.to_nat (x mod Z.of_nat n) in
  (take k (drop r (seq 0 n) ++ take r (seq 0 n)), s').

(** The tape of a seed: a linear congruential sequence. *)
Fixpoint lcg_tape (len : nat) (x : Z) : list Z :=
  match len with
  | 0 => []
  | S len' =>
      let x' := ((x * 1103515245 + 12345) mod 2147483648)%Z in
      (x' / 65536)%Z :: lcg_tape len' x'
  end.

Definition tape_default_rng (seed : N) : list Z := lcg_tape 512 (Z.of_N seed).

(** Insertion of index [i] into a list of later indices: in front of the
    first entry it is smaller than ([strict]) or not greater than. *)
Definition key (a : list Z) (i : nat) : Z := default 0%Z (a !! i).

Definition goes_before (strict : bool) (x y : Z) : bool :=
  if strict then (x <? y)%Z else (x <=? y)%Z.

Fixpoint insert_idx (strict : bool) (a : list Z) (i : nat) (l : list nat)
    : list nat :=
  match l with
  | [] => [i]
  | j :: l' =>
      if goes_before strict (key a i) (key a j) then i :: j :: l'
      else j :: insert_idx strict a i l'
  end.

(** [strict = false] keeps equal entries in index order (a stable sort);
    [strict = true] lists them in decreasing index order. *)
Definition insertion_argsort (strict : bool) (a : list Z) : list nat :=
  foldr (insert_idx strict a) [] (seq 0 (length a)).

(** * Properties *)

(** ** The tape generator and the insertion sorts meet the interfaces *)

Lemma Qltb_lt (x y : Q) : Qltb x y = true ↔ (x < y)%Q.
Proof.
  unfold Qltb. rewrite negb_true_iff. split.
  - intros H. apply Qnot_le_lt. intros Hle.
    apply Qle_bool_iff in Hle. congruence.
  - intros H. destruct (Qle_bool y x) eqn:E; [|done].
    apply Qle_bool_iff in E. exfalso. by apply (Qlt_not_le x y).
Qed.

Lemma Qltb_ge (x y : Q) : Qltb x y = false ↔ (y <= x)%Q.
Proof.
  unfold Qltb. rewrite negb_false_iff. apply Qle_bool_iff.
Qed.

Lemma tape_take_length n s : length (tape_take n s).1 = n.
Proof.
  revert s. induction n as [|n IH]; intros s; simpl; [done|].
  destruct (tape_next s) as [x s1]. specialize (IH s1).
  destruct (tape_take n s1) as [xs s2]. simpl in *. by rewrite IH.
Qed.

Lemma to_unit_range x : (0 <= to_unit x)%Q ∧ (to_unit x < 1)%Q.
Proof.
  unfold to_unit, Qle, Qlt. simpl.
  pose proof (Z.mod_pos_bound x 100). lia.
Qed.

Lemma rotation_perm r n : drop r (seq 0 n) ++ take r (seq 0 n) ≡ₚ seq 0 n.
Proof.
  rewrite Permutation_app_comm. by rewrite take_drop.
Qed.

Lemma tape_choice_NoDup n k s : NoDup (tape_choice n k s).1.
Proof.
  unfold tape_choice. destruct (tape_next s) as [x s']. simpl.
  eapply sublist_NoDup; [|apply sublist_take].
  rewrite rotation_perm. apply NoDup_seq.
Qed.

Lemma tape_choice_range n k s : Forall (λ i, i < n) (tape_choice n k s).1.
Proof.
  unfold tape_choice. destruct (tape_next s) as [x s']. simpl.
  apply Forall_take. rewrite rotation_perm. apply Forall_seq. lia.
Qed.

Lemma tape_choice_length n k s : k ≤ n → length (tape_choice n k s).1 = k.
Proof.
  intros Hk. unfold tape_choice. destruct (tape_next s) as [x s']. simpl.
  rewrite length_take, (Permutation_length (rotation_perm _ n)), length_seq.
  lia.
Qed.

#[export] Program Instance TapeGenerator : Generator := {|
  rng_state := list Z;
  default_rng := tape_default_rng;
  rng_random := tape_random;
  rng_random_n := tape_random_n;
  rng_integers := tape_integers;
  rng_choice := tape_choice
|}.
Next Obligation.
  intros s. unfold tape_random. destruct (tape_next s). apply to_unit_range.
Qed.
Next Obligation.
  intros n s. unfold tape_random_n. pose proof (tape_take_length n s).
  destruct (tape_take n s). simpl in *. by rewrite length_fmap.
Qed.
Next Obligation.
  intros n s. unfold tape_random_n. destruct (tape_take n s). simpl.
  apply Forall_fmap, Forall_true. intros x. apply to_unit_range.
Qed.
Next Obligation.
  intros low high n s. unfold tape_integers. pose proof (tape_take_length n s).
  destruct (tape_take n s). simpl in *. by rewrite length_fmap.
Qed.
Next Obligation.
  intros low high n s Hlh. unfold tape_integers. destruct (tape_take n s).
  simpl. apply Forall_fmap, Forall_true. intros x. simpl.
  pose proof (Z.mod_pos_bound x (high - low)). lia.
Qed.
Next Obligation. intros n k s. apply tape_choice_length. Qed.
Next Obligation. intros n k s _. apply tape_choice_NoDup. Qed.
Next Obligation. intros n k s _. apply tape_choice_range. Qed.

Lemma StronglySorted_lookup_lt {A} (R : relation A) (l : list A) i j x y :
  StronglySorted R l → i < j → l !! i = Some x → l !! j = Some y → R x y.
Proof.
  intros Hs. revert i j. induction Hs as [|z l Hs IH Hz]; intros i j Hij Hi Hj.
  - done.
  - destruct j as [|j]; [lia|]. destruct i as [|i]; simpl in *.
    + injection Hi as ->. rewrite Forall_forall in Hz.
      apply Hz. by eapply list_elem_of_lookup_2.
    + apply (IH i j); [lia|done..].
Qed.

Lemma insert_idx_perm strict a i l : insert_idx strict a i l ≡ₚ i :: l.
Proof.
  induction l as [|j l IH]; simpl; [done|].
  destruct (goes_before _ _ _); [done|].
  rewrite IH. apply Permutation_swap.
Qed.

Lemma insertion_argsort_perm strict a :
  insertion_argsort strict a ≡ₚ seq 0 (length a).
Proof.
  unfold insertion_argsort. induction (seq 0 (length a)) as [|i l IH]; simpl.
  - done.
  - by rewrite insert_idx_perm, IH.
Qed.

Lemma goes_before_true strict x y :
  goes_before strict x y = true → (x ≤ y)%Z.
Proof. destruct strict; simpl; lia. Qed.

Lemma goes_before_false strict x y :
  goes_before strict x y = false → (y ≤ x)%Z.
Proof. destruct strict; simpl; lia. Qed.

Lemma insert_idx_sorted strict a i l :
  StronglySorted (λ x y, (key a x ≤ key a y)%Z) l →
  StronglySorted (λ x y, (key a x ≤ key a y)%Z) (insert_idx strict a i l).
Proof.
  induction 1 as [|j l Hs IH Hj]; simpl.
  - repeat constructor.
  - destruct (goes_before _ _ _) eqn:E.
    + apply goes_before_true in E. constructor; [by constructor|].
      constructor; [done|]. eapply Forall_impl; [exact Hj|].
      simpl. intros. lia.
    + apply goes_before_false in E. constructor; [done|].
      rewrite insert_idx_perm. by constructor.
Qed.

Lemma insertion_argsort_sorted strict a :
  StronglySorted (λ x y, (key a x ≤ key a y)%Z) (insertion_argsort strict a).
Proof.
  unfold insertion_argsort. induction (seq 0 (length a)) as [|i l IH]; simpl.
  - constructor.
  - by apply insert_idx_sorted.
Qed.

Lemma insertion_argsort_law strict a i j x y vx vy :
  i ≤ j →
  insertion_argsort strict a !! i = Some x →
  insertion_argsort strict a !! j = Some y →
  a !! x = Some vx → a !! y = Some vy → (vx ≤ vy)%Z.
Proof.
  intros Hij Hi Hj Hx Hy.
  destruct (decide (i = j)) as [->|Hne].
  - rewrite Hi in Hj. injection Hj as ->. rewrite Hx in Hy. injection Hy. lia.
  - pose proof (StronglySorted_lookup_lt _ _ i j x y
                  (insertion_argsort_sorted strict a)) as H.
    unfold key in H. rewrite Hx, Hy in H. simpl in H. apply H; [lia|done..].
Qed.

(** The stable insertion sort: what [np.argsort(a, kind='stable')] returns. *)
Definition StableSort : ArgSort := {|
  argsort := insertion_argsort false;
  argsort_perm := insertion_argsort_perm false;
  argsort_sorted := insertion_argsort_law false
|}.

(** A sort that is not stable: equal entries come out in decreasing index
    order. *)
Definition ReversingSort : ArgSort := {|
  argsort := insertion_argsort true;
  argsort_perm := insertion_argsort_perm true;
  argsort_sorted := insertion_argsort_law true
|}.

(** ** q2: the rule engine *)

Local Open Scope Z_scope.

Example run_rules_default_widgets :
  run_rules (ui_facts 23 50 "OCCUPIED" "DAY" false) DEFAULT_RULES
  = Ok (default_action, []).
Proof. vm_compute. reflexivity. Qed.

Example run_rules_hot_humid_night :
  match run_rules (ui_facts 31 80 "OCCUPIED" "NIGHT" false) DEFAULT_RULES with
  | Ok (a, fired) => Some (a, fmap priority fired)
  | Raise _ => None
  end
  = Some (Action "COOL" "HIGH" (Some 23) "High temperature and humidity detected",
          [85; 80; 75]).
Proof. vm_compute. reflexivity. Qed.

(** A comparison that Python refuses makes the whole call raise. *)
Example run_rules_type_error :
  run_rules {[ "temperature" := VStr "hot" ]} DEFAULT_RULES = Raise TypeError.
Proof. vm_compute. reflexivity. Qed.

Definition supported_operators : list string :=
  ["=="; "!="; ">"; ">="; "<"; "<="].

Lemma OPS_keys : OPS_table.*1 = supported_operators.
Proof. reflexivity. Qed.

Lemma OPS_lookup_None (op : string) :
  op ∉ supported_operators ↔ OPS !! op = None.
Proof.
  unfold OPS. rewrite <- OPS_keys. apply not_elem_of_list_to_map.
Qed.

Lemma evaluate_condition_missing (facts : gmap string value) field op v :
  facts !! field = None → evaluate_condition facts (field, op, v) = Ok false.
Proof. intros H. unfold evaluate_condition. by rewrite H. Qed.

Lemma evaluate_condition_unsupported (facts : gmap string value) field op v :
  OPS !! op = None → evaluate_condition facts (field, op, v) = Ok false.
Proof.
  intros H. unfold evaluate_condition. rewrite H. by destruct (facts !! field).
Qed.

Lemma all_conditions_true (facts : gmap string value) conds :
  all_conditions facts conds = Ok true
  ↔ Forall (λ c, evaluate_condition facts c = Ok true) conds.
Proof.
  induction conds as [|c cs IH]; simpl.
  - split; [constructor|done].
  - rewrite Forall_cons.
    destruct (evaluate_condition facts c) as [[]|e] eqn:E.
    + rewrite IH. tauto.
    + split; [done|]. intros [? _]. done.
    + split; [done|]. intros [? _]. done.
Qed.

Lemma all_conditions_not_true (facts : gmap string value) conds c :
  c ∈ conds → evaluate_condition facts c = Ok false →
  all_conditions facts conds ≠ Ok true.
Proof.
  intros Hin Hc Hall. apply all_conditions_true in Hall.
  rewrite Forall_forall in Hall. specialize (Hall _ Hin). congruence.
Qed.

(** The rules for which [rule_matches] returns [True]. *)
Definition matches (facts : gmap string value) (r : rule) : Prop :=
  rule_matches facts r = Ok true.

#[local] Instance exn_eq_dec : EqDecision exn.
Proof. solve_decision. Defined.

#[local] Instance result_eq_dec {A} `{!EqDecision A} : EqDecision (result A).
Proof. solve_decision. Defined.

#[local] Instance matches_dec facts r : Decision (matches facts r).
Proof. unfold matches. apply _. Defined.

Lemma matching_Ok (facts : gmap string value) rules :
  Forall (λ r, is_Ok (rule_matches facts r)) rules →
  matching facts rules = Ok (filter (matches facts) rules).
Proof.
  unfold matches. induction 1 as [|r rs [b Hb] _ IH]; simpl; [done|].
  rewrite Hb, IH. destruct b.
  - by rewrite filter_cons_True.
  - by rewrite filter_cons_False by congruence.
Qed.

Lemma matching_Raise (facts : gmap string value) rules e :
  matching facts rules = Raise e →
  ∃ r e', r ∈ rules ∧ rule_matches facts r = Raise e'.
Proof.
  induction rules as [|r rs IH]; simpl; [done|].
  destruct (rule_matches facts r) as [b|e'] eqn:E.
  - destruct (matching facts rs) as [ms|e'']; [done|].
    intros [= ->]. destruct (IH eq_refl) as (r' & e' & Hin & Hr').
    exists r', e'. split; [by right|done].
  - intros _. exists r, e'. split; [by left|done].
Qed.

(** *** The sort is the stable sort by decreasing priority *)

Lemma insert_rule_perm r l : insert_rule r l ≡ₚ r :: l.
Proof.
  induction l as [|y l IH]; simpl; [done|].
  destruct (priority y <=? priority r); [done|].
  rewrite IH. apply Permutation_swap.
Qed.

Lemma sort_by_priority_perm l : sort_by_priority l ≡ₚ l.
Proof.
  induction l as [|r l IH]; simpl; [done|].
  by rewrite insert_rule_perm, IH.
Qed.

Lemma sort_by_priority_sorted l :
  StronglySorted (λ r1 r2, priority r2 ≤ priority r1) (sort_by_priority l).
Proof.
  induction l as [|r l IH]; simpl; [constructor|].
  induction IH as [|y s Hs IHs Hy]; simpl.
  - repeat constructor.
  - destruct (priority y <=? priority r) eqn:E.
    + constructor; [by constructor|]. constructor; [lia|].
      eapply Forall_impl; [exact Hy|]. simpl. intros. lia.
    + constructor; [done|]. rewrite insert_rule_perm.
      constructor; [lia|done].
Qed.

Lemma filter_insert_rule p r s :
  filter (λ x, priority x = p) (insert_rule r s)
  = filter (λ x, priority x = p) (r :: s).
Proof.
  induction s as [|y s IH]; simpl; [done|].
  destruct (priority y <=? priority r) eqn:E; [done|].
  rewrite (filter_cons _ y), IH, !(filter_cons _ r), !(filter_cons _ y).
  destruct (decide (priority r = p)), (decide (priority y = p)); try done.
  lia.
Qed.

(** Stability: rules of one priority keep their input order. *)
Lemma sort_by_priority_stable p l :
  filter (λ r, priority r = p) (sort_by_priority l)
  = filter (λ r, priority r = p) l.
Proof.
  induction l as [|r l IH]; simpl; [done|].
  by rewrite filter_insert_rule, !(filter_cons _ r), IH.
Qed.

(** The head of the sorted list, located in the input: every rule before
    it has a lower priority and no rule after it a higher one. *)
Lemma sort_by_priority_head l best rest :
  sort_by_priority l = best :: rest →
  ∃ l1 l2, l = l1 ++ best :: l2
    ∧ Forall (λ r, priority r < priority best) l1
    ∧ Forall (λ r, priority r ≤ priority best) l2.
Proof.
  revert best rest. induction l as [|x l IH]; intros best rest; simpl; [done|].
  destruct (sort_by_priority l) as [|b s] eqn:Es; simpl.
  - intros [= <- <-]. exists [], l. split; [done|].
    pose proof (sort_by_priority_perm l) as Hp. rewrite Es in Hp.
    apply Permutation_nil_l in Hp. subst l. by split.
  - destruct (IH b s eq_refl) as (l1 & l2 & -> & H1 & H2).
    destruct (priority b <=? priority x) eqn:E.
    + intros [= <- <-]. exists [], (l1 ++ b :: l2). split; [done|].
      split; [constructor|]. apply Forall_app. split.
      * eapply Forall_impl; [exact H1|]. simpl. intros. lia.
      * constructor; [lia|]. eapply Forall_impl; [exact H2|]. simpl. intros. lia.
    + intros [= <- <-]. exists (x :: l1), l2. split; [done|].
      split; [|done]. constructor; [lia|done].
Qed.

Lemma filter_split {A} (P : A → Prop) `{!∀ x, Decision (P x)} l m1 x m2 :
  filter P l = m1 ++ x :: m2 →
  ∃ l1 l2, l = l1 ++ x :: l2 ∧ filter P l1 = m1 ∧ filter P l2 = m2.
Proof.
  revert m1. induction l as [|y l IH]; intros m1; [by destruct m1|].
  rewrite filter_cons. destruct (decide (P y)) as [Hy|Hy].
  - destruct m1 as [|z m1]; simpl.
    + intros [= -> <-]. by exists [], l.
    + intros [= -> Hf]. destruct (IH _ Hf) as (l1 & l2 & -> & <- & <-).
      exists (z :: l1), l2. by rewrite filter_cons_True.
  - intros Hf. destruct (IH _ Hf) as (l1 & l2 & -> & <- & <-).
    exists (y :: l1), l2. by rewrite filter_cons_False.
Qed.

Lemma filter_nil_Forall {A} (P : A → Prop) `{!∀ x, Decision (P x)} l :
  filter P l = [] ↔ Forall (λ x, ¬ P x) l.
Proof.
  induction l as [|x l IH]; [by split; [constructor|]|].
  rewrite filter_cons, Forall_cons. destruct (decide (P x)).
  - split; [done|]. intros [? _]. done.
  - rewrite IH. tauto.
Qed.

(** C9, as the code has it. A rule matches exactly when every one of its
    conditions evaluates to [True]; a condition on a field the facts do
    not hold evaluates to [False] without raising. On facts and rules
    whose comparisons Python accepts, so that every rule evaluates to
    match or no match: when no rule matches, [run_rules] returns the
    fixed default action (and no fired rule); and when some rule
    matches, it returns the action of the matching rule [best] that no
    matching rule outranks, every matching rule declared before [best]
    having a strictly lower priority (first-declared wins among equal
    priorities). *)
Theorem run_rules_spec (facts : gmap string value) (rules : list rule) :
  (∀ r, rule_matches facts r = Ok true
        ↔ Forall (λ c, evaluate_condition facts c = Ok true) (conditions r))
  ∧ (∀ field op v, facts !! field = None →
       evaluate_condition facts (field, op, v) = Ok false)
  ∧ (Forall (λ r, rule_matches facts r = Ok false) rules →
       run_rules facts rules = Ok (default_action, []))
  ∧ (Forall (λ r, is_Ok (rule_matches facts r)) rules →
     Exists (matches facts) rules →
     ∃ before best after,
       rules = before ++ best :: after
       ∧ matches facts best
       ∧ Forall (λ r, matches facts r → priority r < priority best) before
       ∧ Forall (λ r, matches facts r → priority r ≤ priority best) after
       ∧ run_rules facts rules
         = Ok (rule_action best, sort_by_priority (filter (matches facts) rules))).
Proof.
  split; [|split; [|split]].
  - intros r. apply all_conditions_true.
  - intros field op v. apply evaluate_condition_missing.
  - intros Hnone. unfold run_rules. rewrite matching_Ok.
    + replace (filter (matches facts) rules) with (@nil rule); [done|].
      symmetry. apply filter_nil_Forall.
      eapply Forall_impl; [exact Hnone|]. unfold matches. simpl. congruence.
    + eapply Forall_impl; [exact Hnone|]. simpl. intros r Hr. by exists false.
  - intros Hok Hex. unfold run_rules. rewrite (matching_Ok _ _ Hok).
    destruct (filter (matches facts) rules) as [|m ms] eqn:Ef.
    { apply filter_nil_Forall in Ef. rewrite Exists_exists in Hex.
      destruct Hex as (r & Hin & Hr). rewrite Forall_forall in Ef.
      by destruct (Ef r Hin). }
    destruct (sort_by_priority (m :: ms)) as [|best rest] eqn:Es.
    { pose proof (sort_by_priority_perm (m :: ms)) as Hp. rewrite Es in Hp.
      by apply Permutation_nil_l in Hp. }
    destruct (sort_by_priority_head _ _ _ Es) as (m1 & m2 & Hm & H1 & H2).
    rewrite Hm in Ef.
    destruct (filter_split _ _ _ _ _ Ef) as (l1 & l2 & -> & F1 & F2).
    exists l1, best, l2. split; [done|].
    assert (matches facts best) as Hbest.
    { assert (best ∈ filter (matches facts) (l1 ++ best :: l2)) as Hin.
      { rewrite Ef. apply elem_of_app. right. by left. }
      by apply list_elem_of_filter in Hin as [? _]. }
    split; [done|]. split; [|split; [|done]].
    + apply Forall_forall. intros r Hin Hr.
      rewrite Forall_forall in H1. apply H1. rewrite <- F1.
      by apply list_elem_of_filter.
    + apply Forall_forall. intros r Hin Hr.
      rewrite Forall_forall in H2. apply H2. rewrite <- F2.
      by apply list_elem_of_filter.
Qed.

(** [run_rules_spec] at the shipped rule table. On a hot and humid night
    in an occupied house every rule evaluates and the third one matches;
    with the widgets as they come up every rule evaluates to no match
    and the default action is returned. *)
Lemma run_rules_spec_witness :
  (∃ before best after,
     DEFAULT_RULES = before ++ best :: after
     ∧ matches (ui_facts 31 80 "OCCUPIED" "NIGHT" false) best
     ∧ run_rules (ui_facts 31 80 "OCCUPIED" "NIGHT" false) DEFAULT_RULES
       = Ok (rule_action best,
             sort_by_priority
               (filter (matches (ui_facts 31 80 "OCCUPIED" "NIGHT" false))
                       DEFAULT_RULES)))
  ∧ run_rules (ui_facts 23 50 "OCCUPIED" "DAY" false) DEFAULT_RULES
    = Ok (default_action, []).
Proof.
  split.
  - destruct (run_rules_spec (ui_facts 31 80 "OCCUPIED" "NIGHT" false)
                DEFAULT_RULES) as (_ & _ & _ & H).
    destruct H as (before & best & after & Hsplit & Hbest & _ & _ & Hrun).
    + unfold DEFAULT_RULES.
      repeat constructor; eexists; vm_compute; reflexivity.
    + unfold DEFAULT_RULES. do 2 apply Exists_cons_tl. apply Exists_cons_hd.
      vm_compute. reflexivity.
    + by exists before, best, after.
  - destruct (run_rules_spec (ui_facts 23 50 "OCCUPIED" "DAY" false)
                DEFAULT_RULES) as (_ & _ & H & _).
    apply H. unfold DEFAULT_RULES. repeat constructor; vm_compute; reflexivity.
Defined.

(** Facts whose temperature is not a number. *)
Definition hot_facts : gmap string value := {[ "temperature" := VStr "hot" ]}.

(** C9 as stated fails where a comparison raises. On [hot_facts] no rule
    of the shipped table matches: six of them have a condition on a
    field that is missing, and the last one compares ['hot' <= 22],
    which Python refuses. No rule matches, yet [run_rules] does not
    return the default action: the [TypeError] leaves it. *)
Lemma run_rules_raises_without_match :
  Forall (λ r, rule_matches hot_facts r ≠ Ok true) DEFAULT_RULES
  ∧ run_rules hot_facts DEFAULT_RULES = Raise TypeError
  ∧ run_rules hot_facts DEFAULT_RULES ≠ Ok (default_action, []).
Proof.
  split; [|split].
  - unfold DEFAULT_RULES. repeat constructor; vm_compute; discriminate.
  - vm_compute. reflexivity.
  - vm_compute. discriminate.
Qed.

(** C10. A condition whose operator is none of the six keys of [OPS]
    evaluates to [False] on every fact set, without raising, and no rule
    that holds such a condition is ever reported as matching. *)
Theorem unsupported_operator_never_matches
    (facts : gmap string value) (field op : string) (v : value) :
  op ∉ supported_operators →
  evaluate_condition facts (field, op, v) = Ok false
  ∧ ∀ r, (field, op, v) ∈ conditions r → rule_matches facts r ≠ Ok true.
Proof.
  intros Hop. apply OPS_lookup_None in Hop.
  pose proof (evaluate_condition_unsupported facts field op v Hop) as Hev.
  split; [done|]. intros r Hin. unfold rule_matches.
  by eapply all_conditions_not_true.
Qed.

(** [unsupported_operator_never_matches] for the operator ["=~"] against
    the dashboard's default facts. *)
Lemma unsupported_operator_never_matches_witness :
  ("=~" ∉ supported_operators)
  ∧ evaluate_condition (ui_facts 23 50 "OCCUPIED" "DAY" false)
      ("temperature", "=~", VInt 23) = Ok false.
Proof.
  assert ("=~" ∉ supported_operators) as Hop.
  { unfold supported_operators. intros Hin.
    repeat (apply elem_of_cons in Hin as [Hin|Hin]; [discriminate Hin|]).
    by apply elem_of_nil in Hin. }
  split; [exact Hop|].
  exact (proj1 (unsupported_operator_never_matches
                  (ui_facts 23 50 "OCCUPIED" "DAY" false)
                  "temperature" "=~" (VInt 23) Hop)).
Defined.

Local Close Scope Z_scope.

(** ** q1: mutation *)

(** [child ^ 1] on every position. *)
Definition flip_all (child : genome) : genome := fmap (λ b, Z.lxor b 1) child.

Definition is_bit (b : Z) : Prop := b = 0%Z ∨ b = 1%Z.

Lemma flip_bit b : is_bit b → Z.lxor b 1 = (1 - b)%Z.
Proof. by intros [-> | ->]. Qed.

Lemma flip_all_bits child :
  Forall is_bit child → flip_all child = fmap (λ b, 1 - b)%Z child.
Proof.
  unfold flip_all. induction 1 as [|b l Hb _ IH]; [done|].
  rewrite !fmap_cons. by rewrite (flip_bit b Hb), IH.
Qed.

Lemma zip_with_mask (child : genome) (u : list Q) (pm : Q) (b : bool) :
  length u = length child →
  Forall (λ x, Qltb x pm = b) u →
  zip_with (λ (x : Z) (f : bool), if f then Z.lxor x 1 else x) child
           (fmap (λ x, Qltb x pm) u)
  = if b then flip_all child else child.
Proof.
  revert u. induction child as [|x child IH]; intros [|q u] Hlen Hall;
    try discriminate Hlen.
  - by destruct b.
  - apply Forall_cons in Hall as [Hq Hall]. injection Hlen as Hlen.
    rewrite fmap_cons. cbn [zip_with]. rewrite Hq, (IH u Hlen Hall).
    by destruct b.
Qed.

Section Mutation.
Context {G : Generator} (c : Config).

(** What [mutation] does to the generator: one call of [rng.random(n)]. *)
Lemma mutation_Ok (child : genome) (s : rng_state) :
  length child = GENE_LENGTH c →
  mutation c child s
  = Ok (zip_with (λ (x : Z) (f : bool), if f then Z.lxor x 1 else x) child
          (fmap (λ x, Qltb x (PM c)) (rng_random_n (GENE_LENGTH c) s).1),
        (rng_random_n (GENE_LENGTH c) s).2).
Proof.
  intros Hlen. unfold mutation, bind, random_n, ret.
  destruct (rng_random_n (GENE_LENGTH c) s) as [u s'] eqn:E. simpl.
  pose proof (random_n_length (GENE_LENGTH c) s) as Hu. rewrite E in Hu.
  simpl in Hu. rewrite length_fmap. case_decide as H0.
  - destruct child; [done|]. simpl in Hlen. lia.
  - rewrite decide_True; [done|]. lia.
Qed.

(** A mutated chromosome is as long as the one passed in, and with a
    non-empty mask that is [GENE_LENGTH]. *)
Lemma mutation_length (child m : genome) (s s' : rng_state) :
  mutation c child s = Ok (m, s') →
  length m = length child
  ∧ (1 ≤ GENE_LENGTH c → length child = GENE_LENGTH c).
Proof.
  unfold mutation, bind, random_n, ret, raise.
  destruct (rng_random_n (GENE_LENGTH c) s) as [u s1] eqn:E.
  pose proof (random_n_length (GENE_LENGTH c) s) as Hu. rewrite E in Hu.
  simpl in Hu. rewrite length_fmap. case_decide as H0.
  - intros [= <- <-]. split; [done|lia].
  - case_decide as Hlen; [|done]. intros [= <- <-].
    rewrite length_zip_with, length_fmap. lia.
Qed.

(** C8. On a chromosome of [GENE_LENGTH] genes, [mutation] with [PM = 0]
    returns its input unchanged, and with [PM = 1] returns it with every
    gene XOR-ed with 1, which on bits is [1 - b]: every bit flipped. *)
Theorem mutation_extremes (child : genome) (s : rng_state) :
  length child = GENE_LENGTH c →
  ((PM c == 0)%Q → ∃ s', mutation c child s = Ok (child, s'))
  ∧ ((PM c == 1)%Q →
       (∃ s', mutation c child s = Ok (flip_all child, s'))
       ∧ (Forall is_bit child → flip_all child = fmap (λ b, 1 - b)%Z child)).
Proof.
  intros Hlen. pose proof (random_n_length (GENE_LENGTH c) s) as Hu.
  pose proof (random_n_unit (GENE_LENGTH c) s) as Hunit.
  split; intros Hpm.
  - eexists. rewrite (mutation_Ok child s Hlen).
    rewrite (zip_with_mask child _ (PM c) false); [done|lia|].
    eapply Forall_impl; [exact Hunit|]. simpl. intros x [Hx _].
    apply Qltb_ge. by rewrite Hpm.
  - split; [|apply flip_all_bits].
    eexists. rewrite (mutation_Ok child s Hlen).
    rewrite (zip_with_mask child _ (PM c) true); [done|lia|].
    eapply Forall_impl; [exact Hunit|]. simpl. intros x [_ Hx].
    apply Qltb_lt. by rewrite Hpm.
Qed.

End Mutation.

(** [mutation_extremes] on the chromosome 0110 with the tape generator,
    at [PM = 0]. *)
Lemma mutation_extremes_witness :
  ∃ s', mutation (G := TapeGenerator)
          {| POP_SIZE := 4; GENE_LENGTH := 4; MAX_GEN := 1; PC := 0; PM := 0;
             ELITE := 1; TOUR_K := 2; SEED := 7 |}
          [0; 1; 1; 0]%Z [5; 50; 95; 20]%Z
        = Ok ([0; 1; 1; 0]%Z, s').
Proof.
  apply (mutation_extremes (G := TapeGenerator)
           {| POP_SIZE := 4; GENE_LENGTH := 4; MAX_GEN := 1; PC := 0; PM := 0;
              ELITE := 1; TOUR_K := 2; SEED := 7 |}
           [0; 1; 1; 0]%Z [5; 50; 95; 20]%Z); reflexivity.
Defined.

Example mutation_pm_one :
  mutation (G := TapeGenerator)
    {| POP_SIZE := 4; GENE_LENGTH := 4; MAX_GEN := 1; PC := 0; PM := 1;
       ELITE := 1; TOUR_K := 2; SEED := 7 |}
    [0; 1; 1; 0]%Z [5; 50; 95; 20]%Z
  = Ok ([1; 0; 0; 1]%Z, []).
Proof. vm_compute. reflexivity. Qed.

(** ** q1: crossover *)

(** The two-point recombination with cuts [i ≤ j]:
    [a[0:i] ++ b[i:j] ++ a[j:]]. *)
Definition two_point (a b : genome) (i j : nat) : genome :=
  take i a ++ take (j - i) (drop i b) ++ drop j a.

Lemma slice_bound_nat len (i : nat) : slice_bound len (Z.of_nat i) = i `min` len.
Proof.
  unfold slice_bound. destruct (Z.ltb_spec (Z.of_nat i) 0); [lia|].
  by rewrite Nat2Z.id.
Qed.

Lemma slice_to_nat {A} (a : list A) (i : nat) : slice_to (Z.of_nat i) a = take i a.
Proof.
  unfold slice_to. rewrite slice_bound_nat.
  destruct (Nat.min_spec i (length a)) as [[_ ->] | [Hle ->]]; [done|].
  by rewrite !take_ge by lia.
Qed.

Lemma slice_from_nat {A} (a : list A) (i : nat) :
  slice_from (Z.of_nat i) a = drop i a.
Proof.
  unfold slice_from. rewrite slice_bound_nat.
  destruct (Nat.min_spec i (length a)) as [[_ ->] | [Hle ->]]; [done|].
  by rewrite !drop_ge by lia.
Qed.

Lemma slice_nat {A} (a : list A) (i j : nat) :
  i ≤ j → slice (Z.of_nat i) (Z.of_nat j) a = take (j - i) (drop i a).
Proof.
  intros Hij. unfold slice. rewrite !slice_bound_nat.
  destruct (decide (length a ≤ i)) as [Hi|Hi].
  - rewrite !drop_ge by lia. by rewrite !take_nil.
  - replace (i `min` length a) with i by lia.
    destruct (decide (j ≤ length a)) as [Hj|Hj].
    + by replace (j `min` length a) with j by lia.
    + replace (j `min` length a) with (length a) by lia.
      rewrite !take_ge; [done|rewrite length_drop; lia..].
Qed.

Lemma sorted_pair x y : sorted [x; y] = [Z.min x y; Z.max x y].
Proof.
  unfold sorted. simpl. destruct (Z.leb_spec x y).
  - by rewrite Z.min_l, Z.max_r by lia.
  - by rewrite Z.min_r, Z.max_l by lia.
Qed.

Section Crossover.
Context {G : Generator} (c : Config).

(** The branch not taken: the parents are copied. *)
Lemma crossover_copy (p1 p2 : genome) (s : rng_state) :
  Qltb (rng_random s).1 (PC c) = false →
  crossover c p1 p2 s = Ok ((p1, p2), (rng_random s).2).
Proof.
  intros Hr. unfold crossover, bind, random, ret.
  destruct (rng_random s) as [r s1]. simpl in *. by rewrite Hr.
Qed.

(** The branch taken: the two integers drawn after the float are the
    cuts, the smaller one first. *)
Lemma crossover_cut_draw (p1 p2 : genome) (s : rng_state) :
  Qltb (rng_random s).1 (PC c) = true →
  2 ≤ GENE_LENGTH c →
  ∃ x y : Z,
    (rng_integers 1 (Z.of_nat (GENE_LENGTH c)) 2 (rng_random s).2).1 = [x; y]
    ∧ (1 ≤ x < Z.of_nat (GENE_LENGTH c))%Z
    ∧ (1 ≤ y < Z.of_nat (GENE_LENGTH c))%Z
    ∧ crossover c p1 p2 s
      = Ok ((two_point p1 p2 (Z.to_nat (Z.min x y)) (Z.to_nat (Z.max x y)),
             two_point p2 p1 (Z.to_nat (Z.min x y)) (Z.to_nat (Z.max x y))),
            (rng_integers 1 (Z.of_nat (GENE_LENGTH c)) 2 (rng_random s).2).2).
Proof.
  intros Hr HL. unfold crossover, bind, random, integers, ret.
  destruct (rng_random s) as [r s1]. simpl in Hr. rewrite Hr. simpl.
  rewrite decide_True by lia.
  pose proof (integers_length 1 (Z.of_nat (GENE_LENGTH c)) 2 s1) as Hlen.
  pose proof (integers_range 1 (Z.of_nat (GENE_LENGTH c)) 2 s1) as Hrange.
  destruct (rng_integers 1 (Z.of_nat (GENE_LENGTH c)) 2 s1) as [cuts s2].
  simpl in *. destruct cuts as [|x [|y [|? ?]]]; try done.
  specialize (Hrange ltac:(lia)).
  apply Forall_cons in Hrange as [Hx Hrange].
  apply Forall_cons in Hrange as [Hy _].
  rewrite sorted_pair. exists x, y.
  split; [done|]. split; [lia|]. split; [lia|].
  rewrite <- (Z2Nat.id (Z.min x y)) at 1 2 3 4 by lia.
  rewrite <- (Z2Nat.id (Z.max x y)) at 1 2 3 4 by lia.
  rewrite !slice_to_nat, !slice_from_nat, !slice_nat by lia.
  reflexivity.
Qed.

(** Both cuts lie in [1 .. GENE_LENGTH - 1], in order, and may
    coincide. *)
Lemma crossover_cut (p1 p2 : genome) (s : rng_state) :
  Qltb (rng_random s).1 (PC c) = true →
  2 ≤ GENE_LENGTH c →
  ∃ (i j : nat) (s' : rng_state),
    1 ≤ i ∧ i ≤ j ∧ j < GENE_LENGTH c
    ∧ crossover c p1 p2 s
      = Ok ((two_point p1 p2 i j, two_point p2 p1 i j), s').
Proof.
  intros Hr HL.
  destruct (crossover_cut_draw p1 p2 s Hr HL) as (x & y & _ & Hx & Hy & H).
  eexists _, _, _. split; [|split; [|split; [|exact H]]]; lia.
Qed.

(** With a single gene there is no interior cut: NumPy refuses the empty
    range. *)
Lemma crossover_no_cut (p1 p2 : genome) (s : rng_state) :
  Qltb (rng_random s).1 (PC c) = true →
  GENE_LENGTH c ≤ 1 →
  crossover c p1 p2 s = Raise ValueError.
Proof.
  intros Hr HL. unfold crossover, bind, random, integers.
  destruct (rng_random s) as [r s1]. simpl in Hr. rewrite Hr.
  by rewrite decide_False by lia.
Qed.

(** C2, as the code has it. With [PC = 0] the children are the parents,
    and the generator has made its one call of [rng.random()]. With
    [PC = 1] and at least two genes, [crossover] always recombines: the
    call [rng.integers(1, GENE_LENGTH, 2)] that follows [rng.random()]
    returns two integers [x] and [y] of [1 .. GENE_LENGTH - 1], the cuts
    are [i = min x y] and [j = max x y], child 1 is
    [p1[0:i] ++ p2[i:j] ++ p1[j:]] and child 2 is
    [p2[0:i] ++ p1[i:j] ++ p2[j:]]. The two integers are drawn
    independently, so the cuts may be equal. *)
Theorem crossover_extremes (p1 p2 : genome) (s : rng_state) :
  ((PC c == 0)%Q → crossover c p1 p2 s = Ok ((p1, p2), (rng_random s).2))
  ∧ ((PC c == 1)%Q → 2 ≤ GENE_LENGTH c →
       ∃ x y : Z,
         (rng_integers 1 (Z.of_nat (GENE_LENGTH c)) 2 (rng_random s).2).1
         = [x; y]
         ∧ ∃ i j : nat,
             i = Z.to_nat (Z.min x y) ∧ j = Z.to_nat (Z.max x y)
             ∧ 1 ≤ i ∧ i ≤ j ∧ j < GENE_LENGTH c
             ∧ crossover c p1 p2 s
               = Ok ((two_point p1 p2 i j, two_point p2 p1 i j),
                     (rng_integers 1 (Z.of_nat (GENE_LENGTH c)) 2
                        (rng_random s).2).2)).
Proof.
  destruct (random_unit s) as [H0 H1]. split; intros Hpc.
  - apply crossover_copy. apply Qltb_ge. by rewrite Hpc.
  - intros HL.
    destruct (crossover_cut_draw p1 p2 s) as (x & y & Hd & Hx & Hy & H);
      [apply Qltb_lt; by rewrite Hpc|done|].
    exists x, y. split; [done|]. eexists _, _. split; [done|].
    split; [done|]. split; [lia|]. split; [lia|]. split; [lia|]. exact H.
Qed.

End Crossover.

(** A configuration of four genes that always crosses over. *)
Definition always_cross : Config :=
  {| POP_SIZE := 4; GENE_LENGTH := 4; MAX_GEN := 1; PC := 1; PM := 0;
     ELITE := 1; TOUR_K := 2; SEED := 7 |}.

(** The same configuration, never crossing over. *)
Definition never_cross : Config :=
  {| POP_SIZE := 4; GENE_LENGTH := 4; MAX_GEN := 1; PC := 0; PM := 0;
     ELITE := 1; TOUR_K := 2; SEED := 7 |}.

(** [crossover_extremes] on 0000 and 1111 with the tape generator. At
    [PC = 1] the tape 0, 0, 2 gives the draw [[1, 3]]: the cuts are 1 and
    3 and the children 0110 and 1001. At [PC = 0] the children are the
    parents and one entry of the tape is read. *)
Lemma crossover_extremes_witness :
  crossover (G := TapeGenerator) always_cross
    [0; 0; 0; 0]%Z [1; 1; 1; 1]%Z [0; 0; 2]%Z
  = Ok (([0; 1; 1; 0]%Z, [1; 0; 0; 1]%Z), [])
  ∧ crossover (G := TapeGenerator) never_cross
      [0; 0; 0; 0]%Z [1; 1; 1; 1]%Z [0; 0; 2]%Z
    = Ok (([0; 0; 0; 0]%Z, [1; 1; 1; 1]%Z), [0; 2]%Z).
Proof.
  split.
  - destruct (proj2 (crossover_extremes (G := TapeGenerator) always_cross
                       [0; 0; 0; 0]%Z [1; 1; 1; 1]%Z [0; 0; 2]%Z)
                eq_refl ltac:(simpl; lia))
      as (x & y & Hd & i & j & -> & -> & _ & _ & _ & H).
    vm_compute in Hd. injection Hd as <- <-. exact H.
  - exact (proj1 (crossover_extremes (G := TapeGenerator) never_cross
                    [0; 0; 0; 0]%Z [1; 1; 1; 1]%Z [0; 0; 2]%Z) eq_refl).
Defined.

Example crossover_distinct_cuts :
  crossover (G := TapeGenerator) always_cross
    [0; 0; 0; 0]%Z [1; 1; 1; 1]%Z [0; 0; 2]%Z
  = Ok (([0; 1; 1; 0]%Z, [1; 0; 0; 1]%Z), []).
Proof. vm_compute. reflexivity. Qed.

(** The claim's two distinct cuts [p1 < p2] fail: when
    [rng.integers(1, 4, 2)] returns [[2, 2]] the cuts coincide, the middle
    segment is empty and the children are the parents, which no pair of
    cuts [1 ≤ i < j ≤ 3] produces from 0000 and 1111. *)
Lemma crossover_cuts_may_coincide :
  crossover (G := TapeGenerator) always_cross
    [0; 0; 0; 0]%Z [1; 1; 1; 1]%Z [0; 1; 1]%Z
  = Ok (([0; 0; 0; 0]%Z, [1; 1; 1; 1]%Z), [])
  ∧ ¬ ∃ (i j : nat) (s' : list Z),
        1 ≤ i ∧ i < j ∧ j < 4
        ∧ crossover (G := TapeGenerator) always_cross
            [0; 0; 0; 0]%Z [1; 1; 1; 1]%Z [0; 1; 1]%Z
          = Ok ((two_point [0; 0; 0; 0]%Z [1; 1; 1; 1]%Z i j,
                 two_point [1; 1; 1; 1]%Z [0; 0; 0; 0]%Z i j), s').
Proof.
  split; [vm_compute; reflexivity|].
  intros (i & j & s' & Hi & Hij & Hj & H).
  assert (i = 1 ∨ i = 2) as [-> | ->] by lia;
    assert (j = 2 ∨ j = 3) as [-> | ->] by lia;
    vm_compute in H; discriminate H || lia.
Qed.

(** ** q1: tournament selection *)

Lemma fancy_index_Forall2 {A} (a : list A) (idx : list nat) (xs : list A) :
  fancy_index a idx = Ok xs ↔ Forall2 (λ i x, a !! i = Some x) idx xs.
Proof.
  revert xs. induction idx as [|i idx IH]; intros xs; simpl.
  - split.
    + intros [= <-]. constructor.
    + intros H. by apply Forall2_nil_inv_l in H as ->.
  - destruct (a !! i) as [x|] eqn:Ei.
    + destruct (fancy_index a idx) as [ys|e] eqn:Ef.
      * split.
        -- intros [= <-]. constructor; [done|]. by apply IH.
        -- intros H. apply Forall2_cons_inv_l in H as (y & l & Hy & Hl & ->).
           apply IH in Hl. congruence.
      * split; [done|]. intros H.
        apply Forall2_cons_inv_l in H as (y & l & Hy & Hl & ->).
        apply IH in Hl. congruence.
    + split; [done|]. intros H.
      apply Forall2_cons_inv_l in H as (y & l & Hy & Hl & ->). congruence.
Qed.

Lemma fancy_index_in_range {A} (a : list A) (idx : list nat) :
  Forall (λ i, i < length a) idx → ∃ xs, fancy_index a idx = Ok xs.
Proof.
  induction 1 as [|i idx Hi _ [xs IH]]; simpl; [by eexists|].
  destruct (lookup_lt_is_Some_2 a i Hi) as [x ->]. rewrite IH. by eexists.
Qed.

Lemma fancy_index_Raise {A} (a : list A) (idx : list nat) e :
  fancy_index a idx = Raise e → e = IndexError.
Proof.
  induction idx as [|i idx IH]; simpl; [done|].
  destruct (a !! i); [|by intros [= <-]].
  destruct (fancy_index a idx); [done|]. intros [= <-]. by apply IH.
Qed.

(** [argmax_val x l] is the first position of the maximum of [x :: l]. *)
Lemma argmax_val_spec (x : Z) (l : list Z) :
  (x :: l) !! (argmax_val x l).1 = Some (argmax_val x l).2
  ∧ Forall (λ y, (y ≤ (argmax_val x l).2)%Z) (x :: l)
  ∧ ∀ k y, k < (argmax_val x l).1 → (x :: l) !! k = Some y →
           (y < (argmax_val x l).2)%Z.
Proof.
  revert x. induction l as [|y l IH]; intros x; simpl.
  - split; [done|]. split; [by repeat constructor|]. intros k z Hk. lia.
  - destruct (IH y) as (Hlook & Hall & Hfirst).
    destruct (argmax_val y l) as [j m]. simpl in *.
    destruct (Z.ltb_spec x m); simpl.
    + split; [done|]. split; [constructor; [lia|done]|].
      intros [|k] z Hk; simpl.
      * intros [= <-]. done.
      * intros Hz. apply (Hfirst k z); [lia|done].
    + split; [done|]. split.
      * constructor; [lia|]. eapply Forall_impl; [exact Hall|]. simpl. lia.
      * intros k z Hk. lia.
Qed.

Lemma argmax_spec (a : list Z) :
  a ≠ [] →
  ∃ j m, argmax a = Ok j ∧ a !! j = Some m
    ∧ Forall (λ y, (y ≤ m)%Z) a
    ∧ ∀ k y, k < j → a !! k = Some y → (y < m)%Z.
Proof.
  destruct a as [|x l]; [done|]. intros _.
  exists (argmax_val x l).1, (argmax_val x l).2. split; [done|].
  apply argmax_val_spec.
Qed.

(** [k] distinct indices below [k] are all of them. *)
Lemma all_indices_drawn (n : nat) (idx : list nat) :
  NoDup idx → Forall (λ i, i < n) idx → length idx = n →
  ∀ i, i < n → i ∈ idx.
Proof.
  intros Hnd Hr Hlen i Hi.
  assert (idx ⊆+ seq 0 n) as Hsub.
  { apply NoDup_submseteq; [done|]. intros x Hx. rewrite Forall_forall in Hr.
    apply elem_of_seq. specialize (Hr x Hx). lia. }
  assert (idx ≡ₚ seq 0 n) as Hp.
  { apply submseteq_length_Permutation; [done|]. by rewrite length_seq, Hlen. }
  rewrite Hp. apply elem_of_seq. lia.
Qed.

Section Tournament.
Context {G : Generator} (c : Config).

(** The general statement, for any fitness array as long as the
    population: the draw, the winner and the order in which ties fall
    (the first candidate drawn that reaches the maximum). *)
Lemma tournament_selection_Ok (pop : population) (fit : list Z) (s : rng_state) :
  length fit = length pop → 1 ≤ TOUR_K c → TOUR_K c ≤ length pop →
  ∃ (pos winner : nat) (g : genome) (best : Z),
    let candidates := (rng_choice (length pop) (TOUR_K c) s).1 in
    tournament_selection c pop fit s
      = Ok (g, (rng_choice (length pop) (TOUR_K c) s).2)
    ∧ candidates !! pos = Some winner
    ∧ pop !! winner = Some g ∧ fit !! winner = Some best
    ∧ (∀ i f, i ∈ candidates → fit !! i = Some f → (f ≤ best)%Z)
    ∧ (∀ k i f, k < pos → candidates !! k = Some i → fit !! i = Some f →
         (f < best)%Z).
Proof.
  intros Hfit HK1 HKn. unfold tournament_selection, bind, choice, lift, subscript.
  rewrite decide_True by done.
  pose proof (choice_length (length pop) (TOUR_K c) s HKn) as Hlen.
  pose proof (choice_range (length pop) (TOUR_K c) s HKn) as Hrange.
  destruct (rng_choice (length pop) (TOUR_K c) s) as [cands s1]. simpl in *.
  destruct (fancy_index_in_range fit cands) as [sub Hsub];
    [by rewrite Hfit|].
  rewrite Hsub. apply fancy_index_Forall2 in Hsub.
  pose proof (Forall2_length _ _ _ Hsub) as Hsublen.
  destruct (argmax_spec sub) as (j & m & -> & Hj & Hmax & Hfirst).
  { intros ->. simpl in Hsublen. lia. }
  destruct (Forall2_lookup_r _ _ _ _ _ Hsub Hj) as (w & Hw & Hfw).
  rewrite Hw. unfold ret.
  assert (w < length pop) as Hwlt.
  { rewrite Forall_forall in Hrange. apply Hrange.
    by eapply list_elem_of_lookup_2. }
  destruct (lookup_lt_is_Some_2 pop w Hwlt) as [g Hg]. rewrite Hg.
  exists j, w, g, m. split; [done|]. split; [done|]. split; [done|].
  split; [done|]. split.
  - intros i f Hi Hf. apply list_elem_of_lookup in Hi as [k Hk].
    destruct (Forall2_lookup_l _ _ _ _ _ Hsub Hk) as (f' & Hf' & Hif).
    rewrite Hf in Hif. injection Hif as <-.
    rewrite Forall_forall in Hmax. apply Hmax.
    by eapply list_elem_of_lookup_2.
  - intros k i f Hk Hi Hf.
    destruct (Forall2_lookup_l _ _ _ _ _ Hsub Hi) as (f' & Hf' & Hif).
    rewrite Hf in Hif. injection Hif as <-. by apply (Hfirst k).
Qed.

(** A tournament larger than the population is refused by
    [rng.choice], an empty one by [np.argmax]. *)
Lemma tournament_selection_too_large (pop : list (list Z)) (fit : list Z)
    (s : rng_state) :
  length pop < TOUR_K c →
  tournament_selection c pop fit s = Raise ValueError.
Proof.
  intros HK. unfold tournament_selection, bind, choice.
  by rewrite decide_False by lia.
Qed.

Lemma tournament_selection_empty (pop : list (list Z)) (fit : list Z)
    (s : rng_state) :
  TOUR_K c = 0 →
  tournament_selection c pop fit s = Raise ValueError.
Proof.
  intros HK. unfold tournament_selection, bind, choice, lift.
  rewrite decide_True by lia.
  pose proof (choice_length (length pop) (TOUR_K c) s ltac:(lia)) as Hlen.
  destruct (rng_choice (length pop) (TOUR_K c) s) as [cands s1].
  simpl in Hlen. rewrite HK in Hlen. by destruct cands.
Qed.

(** C7. On a population with its own fitness array and a tournament size
    [1 ≤ TOUR_K ≤ len(pop)], the candidates of [tournament_selection]
    are the draw of its one call [rng.choice(len(pop), TOUR_K,
    replace=False)]: [TOUR_K] distinct indices below [len(pop)]. It
    returns the chromosome at the drawn index of greatest fitness among
    those drawn, and leaves the generator as that call left it; when
    [TOUR_K = len(pop)] that fitness is the maximum over the whole
    population. *)
Theorem tournament_selection_spec (pop : population) (s : rng_state) :
  1 ≤ TOUR_K c → TOUR_K c ≤ length pop →
  let candidates := (rng_choice (length pop) (TOUR_K c) s).1 in
  length candidates = TOUR_K c
  ∧ NoDup candidates
  ∧ Forall (λ i, i < length pop) candidates
  ∧ ∃ (winner : nat) (g : genome),
      tournament_selection c pop (fitness pop) s
      = Ok (g, (rng_choice (length pop) (TOUR_K c) s).2)
      ∧ winner ∈ candidates
      ∧ pop !! winner = Some g
      ∧ (∀ i h, i ∈ candidates → pop !! i = Some h →
           (row_sum h ≤ row_sum g)%Z)
      ∧ (TOUR_K c = length pop →
           ∀ h, h ∈ pop → (row_sum h ≤ row_sum g)%Z).
Proof.
  intros HK1 HKn.
  destruct (tournament_selection_Ok pop (fitness pop) s)
    as (pos & w & g & best & Hrun & Hpos & Hg & Hbest & Hmax & _);
    [by unfold fitness; rewrite length_fmap|done..|].
  simpl in *.
  assert (best = row_sum g) as ->.
  { unfold fitness in Hbest. rewrite list_lookup_fmap, Hg in Hbest.
    by injection Hbest. }
  assert (∀ i h, i ∈ (rng_choice (length pop) (TOUR_K c) s).1 →
                 pop !! i = Some h → (row_sum h ≤ row_sum g)%Z) as Hamong.
  { intros i h Hi Hh. apply (Hmax i); [done|].
    unfold fitness. by rewrite list_lookup_fmap, Hh. }
  split; [by apply choice_length|].
  split; [by apply choice_NoDup|]. split; [by apply choice_range|].
  exists w, g. split; [done|].
  split; [by eapply list_elem_of_lookup_2|]. split; [done|].
  split; [done|].
  intros HKN h Hh. apply list_elem_of_lookup in Hh as [i Hi].
  apply (Hamong i); [|done].
  apply (all_indices_drawn (length pop)).
  - by apply choice_NoDup.
  - by apply choice_range.
  - rewrite <- HKN at 2. by apply choice_length.
  - by eapply lookup_lt_Some.
Qed.

End Tournament.

(** Four chromosomes of four genes and a tournament over all of them. *)
Definition four_rows : list (list Z) :=
  [[1; 0; 1; 0]; [1; 1; 1; 1]; [0; 0; 0; 1]; [1; 1; 0; 1]]%Z.

Definition full_tournament : Config :=
  {| POP_SIZE := 4; GENE_LENGTH := 4; MAX_GEN := 1; PC := 0; PM := 0;
     ELITE := 1; TOUR_K := 4; SEED := 7 |}.

Example tournament_over_all :
  tournament_selection (G := TapeGenerator) full_tournament four_rows
    (fitness four_rows) [2%Z]
  = Ok ([1; 1; 1; 1]%Z, []).
Proof. vm_compute. reflexivity. Qed.

(** [tournament_selection_spec] at [TOUR_K = len(pop) = 4]: the draw is
    2, 3, 0, 1, the only row that no row beats is 1111, and the tape is
    read through. *)
Lemma tournament_selection_spec_witness :
  (tape_choice 4 4 [2%Z]).1 = [2; 3; 0; 1]
  ∧ tournament_selection (G := TapeGenerator) full_tournament four_rows
      (fitness four_rows) [2%Z]
    = Ok ([1; 1; 1; 1]%Z, []).
Proof.
  split; [reflexivity|].
  destruct (tournament_selection_spec (G := TapeGenerator) full_tournament
              four_rows [2%Z] ltac:(simpl; lia) ltac:(simpl; lia))
    as (_ & _ & _ & winner & g & Hrun & _ & Hg & _ & Hall).
  specialize (Hall eq_refl [1; 1; 1; 1]%Z ltac:(set_solver)).
  destruct winner as [|[|[|[|winner]]]]; simpl in Hg; try discriminate Hg;
    injection Hg as <-; try (vm_compute in Hall; by destruct Hall).
  exact Hrun.
Defined.

(** ** q1: the monad, inverted *)

Section Monad.
Context {G : Generator}.

Lemma bind_Ok {A B} (m : M A) (f : A → M B) (s s' : rng_state) (b : B) :
  bind m f s = Ok (b, s') ↔ ∃ a s1, m s = Ok (a, s1) ∧ f a s1 = Ok (b, s').
Proof.
  unfold bind. destruct (m s) as [[a s1]|e].
  - split; [by exists a, s1|]. by intros (? & ? & [= <- <-] & ?).
  - split; [done|]. by intros (? & ? & ? & ?).
Qed.

Lemma ret_Ok {A} (a b : A) (s s' : rng_state) :
  ret a s = Ok (b, s') ↔ b = a ∧ s' = s.
Proof. unfold ret. split; [by intros [= <- <-]|by intros [-> ->]]. Qed.

Lemma lift_Ok {A} (r : result A) (a : A) (s s' : rng_state) :
  lift r s = Ok (a, s') ↔ r = Ok a ∧ s' = s.
Proof.
  unfold lift. destruct r as [x|e].
  - split; [by intros [= <- <-]|by intros [[= ->] ->]].
  - split; [done|by intros [? _]].
Qed.

Lemma subscript_Ok {A} (a : list A) (i : nat) (x : A) (s s' : rng_state) :
  subscript a i s = Ok (x, s') ↔ a !! i = Some x ∧ s' = s.
Proof.
  unfold subscript. destruct (a !! i) as [y|].
  - rewrite ret_Ok. split; [by intros [-> ->]|by intros [[= ->] ->]].
  - unfold raise. split; [done|by intros [? _]].
Qed.

End Monad.

(** ** q1: arrays *)

Definition is_max (m : Z) (a : list Z) : Prop :=
  m ∈ a ∧ Forall (λ y, (y ≤ m)%Z) a.

Lemma foldr_max_spec (x : Z) (l : list Z) : is_max (foldr Z.max x l) (x :: l).
Proof.
  induction l as [|y l [Hin Hall]]; simpl.
  - split; [by left|by repeat constructor].
  - apply Forall_cons in Hall as [Hx Hall]. split.
    + destruct (Z.max_spec y (foldr Z.max x l)) as [[_ ->] | [_ ->]].
      * apply elem_of_cons in Hin as [->|Hin]; [by left|].
        right. by right.
      * right. by left.
    + constructor; [lia|]. constructor; [lia|].
      eapply Forall_impl; [exact Hall|]. simpl. lia.
Qed.

Lemma array_max_spec (a : list Z) (m : Z) :
  array_max a = Ok m → is_max m a.
Proof.
  destruct a as [|x l]; [done|]. intros [= <-]. apply foldr_max_spec.
Qed.

Lemma array_max_Ok (a : list Z) : a ≠ [] → ∃ m, array_max a = Ok m.
Proof. destruct a; [done|]. by eexists. Qed.

Lemma is_max_unique (m m' : Z) (a : list Z) : is_max m a → is_max m' a → m = m'.
Proof.
  intros [Hin Hall] [Hin' Hall']. rewrite Forall_forall in Hall, Hall'.
  specialize (Hall _ Hin'). specialize (Hall' _ Hin). lia.
Qed.

Lemma reshape_length n l flat : length (reshape n l flat) = n.
Proof. unfold reshape. by rewrite length_fmap, length_seq. Qed.

Lemma reshape_rows n l flat :
  length flat = n * l → Forall (λ row, length row = l) (reshape n l flat).
Proof.
  intros Hlen. unfold reshape. apply Forall_fmap, Forall_seq.
  intros i Hi. simpl. rewrite length_take, length_drop. nia.
Qed.

Lemma slice_last_sublist {A} (e : nat) (a : list A) : slice_last e a `sublist_of` a.
Proof. unfold slice_last. case_decide; [done|]. apply sublist_drop. Qed.

Lemma slice_last_length {A} (e : nat) (a : list A) :
  1 ≤ e → e ≤ length a → length (slice_last e a) = e.
Proof.
  intros. unfold slice_last. rewrite decide_False by lia.
  rewrite length_drop. lia.
Qed.

Lemma slice_last_zero {A} (a : list A) : slice_last 0 a = a.
Proof. done. Qed.

(** For [e ≥ 1] the slice keeps the last entry. *)
Lemma slice_last_last {A} (e : nat) (a : list A) (x : A) :
  1 ≤ e → last a = Some x → x ∈ slice_last e a.
Proof.
  intros He Hlast. unfold slice_last. rewrite decide_False by lia.
  assert (a ≠ []) as Hne by (intros ->; done).
  rewrite last_lookup in Hlast.
  apply list_elem_of_lookup. exists (pred (length a) - (length a - e)).
  rewrite lookup_drop. rewrite <- Hlast. f_equal.
  destruct a; [done|]. simpl. lia.
Qed.

Lemma same_width_Forall (l : nat) (rows : list (list Z)) :
  Forall (λ row, length row = l) rows → same_width rows = true.
Proof.
  intros H. destruct rows as [|r rs]; [done|]. simpl.
  apply Forall_cons in H as [Hr Hrs]. apply forallb_forall.
  rewrite Forall_forall in Hrs. intros x Hx. apply list_elem_of_In in Hx.
  apply Nat.eqb_eq. rewrite Hr. by apply Hrs.
Qed.

Lemma vstack_Ok (l : nat) (new_population elites : list (list Z)) :
  new_population ≠ [] →
  Forall (λ row, length row = l) new_population →
  Forall (λ row, length row = l) elites →
  vstack new_population elites = Ok (new_population ++ elites).
Proof.
  intros Hne Hn He. unfold vstack. destruct new_population as [|r rs]; [done|].
  rewrite (same_width_Forall l); [done|]. by apply Forall_app.
Qed.

Lemma vstack_inv (new_population elites next : list (list Z)) :
  vstack new_population elites = Ok next →
  new_population ≠ [] → next = new_population ++ elites.
Proof.
  unfold vstack. destruct new_population as [|r rs]; [done|].
  destruct (same_width _); [|done]. by intros [= <-].
Qed.

(** ** q1: one generation *)

Lemma two_point_length (a b : list Z) (i j : nat) :
  i ≤ j → j ≤ length a → length b = length a →
  length (two_point a b i j) = length a.
Proof.
  intros Hij Hj Hab. unfold two_point.
  rewrite !length_app, !length_take, !length_drop. lia.
Qed.

(** *** The recorded mean

    The float64 quotient of two integers: both are converted to float64
    and divided, each step rounded to nearest even. For integers below
    2^53 the conversions are exact and the result is the float64 nearest
    to the rational [n / d]. *)
Definition float64_quotient (n d : Z) : float64 :=
  SpecFloat.SFdiv 53 1024 (SpecFloat.binary_normalize 53 1024 n 0 false)
                          (SpecFloat.binary_normalize 53 1024 d 0 false).

(** The sum of an array of integers. *)
Definition total (a : list Z) : Z := foldr Z.add 0%Z a.

Lemma array_mean_quotient (a : list Z) :
  array_mean a = float64_quotient (total a) (Z.of_nat (length a)).
Proof. reflexivity. Qed.

(** 9/4 is a float64; 5/3 is not, and is recorded as
    7505999378950827 / 2^52; the mean of no entries is a NaN. *)
Example array_mean_exact :
  array_mean [4; 1; 2; 2]%Z
  = SpecFloat.S754_finite false 5066549580791808 (-51).
Proof. vm_compute. reflexivity. Qed.

Example array_mean_rounded :
  array_mean [2; 2; 1]%Z
  = SpecFloat.S754_finite false 7505999378950827 (-52).
Proof. vm_compute. reflexivity. Qed.

Example array_mean_empty : array_mean [] = SpecFloat.S754_nan.
Proof. vm_compute. reflexivity. Qed.

Section Generation.
Context {G : Generator} {AS : ArgSort} (c : Config).

(** Every row has [GENE_LENGTH] genes. *)
Definition rect (pop : list (list Z)) : Prop :=
  Forall (λ row, length row = GENE_LENGTH c) pop.

Lemma crossover_inv (p1 p2 c1 c2 : list Z) (s s' : rng_state) :
  crossover c p1 p2 s = Ok ((c1, c2), s') →
  (c1 = p1 ∧ c2 = p2)
  ∨ ∃ i j, 1 ≤ i ∧ i ≤ j ∧ j < GENE_LENGTH c
      ∧ c1 = two_point p1 p2 i j ∧ c2 = two_point p2 p1 i j.
Proof.
  intros H. destruct (Qltb (rng_random s).1 (PC c)) eqn:Hr.
  - destruct (decide (2 ≤ GENE_LENGTH c)) as [HL|HL].
    + destruct (crossover_cut c p1 p2 s Hr HL)
        as (i & j & s1 & Hi & Hij & Hj & Hc).
      rewrite Hc in H. injection H as <- <- <-. right. by exists i, j.
    + rewrite crossover_no_cut in H by (done || lia). done.
  - rewrite crossover_copy in H by done. injection H as <- <- <-. by left.
Qed.

Lemma crossover_Ok (p1 p2 : list Z) (s : rng_state) :
  2 ≤ GENE_LENGTH c →
  length p1 = GENE_LENGTH c → length p2 = GENE_LENGTH c →
  ∃ c1 c2 s', crossover c p1 p2 s = Ok ((c1, c2), s')
    ∧ length c1 = GENE_LENGTH c ∧ length c2 = GENE_LENGTH c.
Proof.
  intros HL H1 H2. destruct (Qltb (rng_random s).1 (PC c)) eqn:Hr.
  - destruct (crossover_cut c p1 p2 s Hr HL)
      as (i & j & s1 & Hi & Hij & Hj & Hc).
    eexists _, _, _. split; [exact Hc|].
    rewrite !two_point_length; lia.
  - eexists _, _, _. split; [by apply crossover_copy|done].
Qed.

Lemma tournament_selection_member (pop : list (list Z)) (fit : list Z)
    (s : rng_state) :
  length fit = length pop → 1 ≤ TOUR_K c → TOUR_K c ≤ length pop →
  ∃ g s', tournament_selection c pop fit s = Ok (g, s') ∧ g ∈ pop.
Proof.
  intros Hfit H1 Hn.
  destruct (tournament_selection_Ok c pop fit s Hfit H1 Hn)
    as (pos & w & g & best & Hrun & _ & Hg & _).
  eexists _, _. split; [exact Hrun|]. by eapply list_elem_of_lookup_2.
Qed.

(** A tournament returns a row of the population. *)
Lemma tournament_selection_row (pop : list (list Z)) (fit : list Z)
    (g : list Z) (s s' : rng_state) :
  tournament_selection c pop fit s = Ok (g, s') → g ∈ pop.
Proof.
  unfold tournament_selection. intros H.
  apply bind_Ok in H as (candidates & s1 & _ & H).
  apply bind_Ok in H as (sub & s2 & _ & H).
  apply bind_Ok in H as (best & s3 & _ & H).
  apply bind_Ok in H as (winner & s4 & _ & H).
  apply subscript_Ok in H as [H _]. by eapply list_elem_of_lookup_2.
Qed.

(** Children of two rows of [GENE_LENGTH] genes have [GENE_LENGTH]
    genes. *)
Lemma crossover_length (p1 p2 c1 c2 : list Z) (s s' : rng_state) :
  length p1 = GENE_LENGTH c → length p2 = GENE_LENGTH c →
  crossover c p1 p2 s = Ok ((c1, c2), s') →
  length c1 = GENE_LENGTH c ∧ length c2 = GENE_LENGTH c.
Proof.
  intros H1 H2 H.
  apply crossover_inv in H as [[-> ->]|(i & j & Hi & Hij & Hj & -> & ->)];
    [done|].
  rewrite !two_point_length; lia.
Qed.

(** The loop appends exactly [remaining] children, each of
    [GENE_LENGTH] genes when the rows of the population are. *)
Lemma breed_inv (pop : list (list Z)) (fit : list Z) (n : nat) :
  ∀ acc s np s',
    breed c n pop fit acc s = Ok (np, s') →
    ∃ kids, np = acc ++ kids ∧ length kids = n ∧ (rect pop → rect kids).
Proof.
  assert (∀ parent1 parent2 child1 child2 m s s1 s2 s3 s4,
            tournament_selection c pop fit s = Ok (parent1, s1) →
            tournament_selection c pop fit s1 = Ok (parent2, s2) →
            crossover c parent1 parent2 s2 = Ok ((child1, child2), s3) →
            rect pop →
            (mutation c child1 s3 = Ok (m, s4) → length m = GENE_LENGTH c)
            ∧ (∀ sa sb, mutation c child2 sa = Ok (m, sb) →
                 length m = GENE_LENGTH c)) as Hkid.
  { intros parent1 parent2 child1 child2 m s s1 s2 s3 s4 Ht1 Ht2 Hc Hrect.
    apply tournament_selection_row in Ht1, Ht2.
    unfold rect in Hrect. rewrite Forall_forall in Hrect.
    destruct (crossover_length _ _ _ _ _ _ (Hrect _ Ht1) (Hrect _ Ht2) Hc)
      as [Hl1 Hl2].
    split; [|intros sa sb]; intros Hm; apply mutation_length in Hm as [-> _];
      done. }
  induction n as [n IH] using lt_wf_ind. intros acc s np s' H.
  destruct n as [|[|n]]; simpl in H.
  - apply ret_Ok in H as [-> _]. exists []. rewrite app_nil_r.
    split; [done|]. split; [done|]. constructor.
  - apply bind_Ok in H as (parent1 & s1 & Ht1 & H).
    apply bind_Ok in H as (parent2 & s2 & Ht2 & H).
    apply bind_Ok in H as ([child1 child2] & s3 & Hc & H).
    apply bind_Ok in H as (m1 & s4 & Hm1 & H).
    apply ret_Ok in H as [-> _].
    exists [m1]. split; [done|]. split; [done|]. intros Hrect.
    repeat constructor.
    by apply (Hkid _ _ _ _ m1 _ _ _ _ s4 Ht1 Ht2 Hc Hrect).
  - apply bind_Ok in H as (parent1 & s1 & Ht1 & H).
    apply bind_Ok in H as (parent2 & s2 & Ht2 & H).
    apply bind_Ok in H as ([child1 child2] & s3 & Hc & H).
    apply bind_Ok in H as (m1 & s4 & Hm1 & H).
    apply bind_Ok in H as (m2 & s5 & Hm2 & H).
    apply IH in H as (kids & -> & Hlen & Hkids); [|lia].
    exists (m1 :: m2 :: kids). split; [by rewrite <- app_assoc|].
    split; [simpl; lia|]. intros Hrect.
    constructor; [by apply (Hkid _ _ _ _ m1 _ _ _ _ s4 Ht1 Ht2 Hc Hrect)|].
    constructor; [|by apply Hkids].
    by eapply (Hkid _ _ _ _ m2 _ _ _ _ s4 Ht1 Ht2 Hc Hrect).
Qed.

Lemma breed_Ok (pop : list (list Z)) (fit : list Z) (n : nat) :
  rect pop → length fit = length pop →
  1 ≤ TOUR_K c → TOUR_K c ≤ length pop → 2 ≤ GENE_LENGTH c →
  ∀ acc s, ∃ np s', breed c n pop fit acc s = Ok (np, s').
Proof.
  intros Hrect Hfit HK1 HKn HL.
  assert (∀ s, ∃ c1 c2 s',
            (bind (tournament_selection c pop fit) (λ parent1,
             bind (tournament_selection c pop fit) (λ parent2,
             crossover c parent1 parent2))) s = Ok ((c1, c2), s')
            ∧ length c1 = GENE_LENGTH c ∧ length c2 = GENE_LENGTH c) as Hpair.
  { intros s.
    destruct (tournament_selection_member pop fit s Hfit HK1 HKn)
      as (g1 & s1 & Ht1 & Hg1).
    destruct (tournament_selection_member pop fit s1 Hfit HK1 HKn)
      as (g2 & s2 & Ht2 & Hg2).
    unfold rect in Hrect. rewrite Forall_forall in Hrect.
    destruct (crossover_Ok g1 g2 s2 HL (Hrect _ Hg1) (Hrect _ Hg2))
      as (c1 & c2 & s3 & Hc & Hl1 & Hl2).
    exists c1, c2, s3. split; [|done].
    apply bind_Ok. exists g1, s1. split; [done|].
    apply bind_Ok. exists g2, s2. by split. }
  induction n as [n IH] using lt_wf_ind. intros acc s.
  destruct n as [|[|n]]; simpl.
  - by eexists _, _.
  - destruct (Hpair s) as (c1 & c2 & s3 & Hc & Hl1 & Hl2).
    apply bind_Ok in Hc as (g1 & s1 & Ht1 & Hc).
    apply bind_Ok in Hc as (g2 & s2 & Ht2 & Hc).
    eexists _, _. apply bind_Ok. exists g1, s1. split; [done|].
    apply bind_Ok. exists g2, s2. split; [done|].
    apply bind_Ok. exists (c1, c2), s3. split; [done|].
    apply bind_Ok. eexists _, _. split; [by apply mutation_Ok|]. done.
  - destruct (Hpair s) as (c1 & c2 & s3 & Hc & Hl1 & Hl2).
    apply bind_Ok in Hc as (g1 & s1 & Ht1 & Hc).
    apply bind_Ok in Hc as (g2 & s2 & Ht2 & Hc).
    destruct (IH n ltac:(lia)
                (acc ++ [ (zip_with (λ (x : Z) (f : bool), if f then Z.lxor x 1 else x) c1
                            (fmap (λ x, Qltb x (PM c)) (rng_random_n (GENE_LENGTH c) s3).1));
                          (zip_with (λ (x : Z) (f : bool), if f then Z.lxor x 1 else x) c2
                            (fmap (λ x, Qltb x (PM c))
                               (rng_random_n (GENE_LENGTH c)
                                  (rng_random_n (GENE_LENGTH c) s3).2).1)) ])
                (rng_random_n (GENE_LENGTH c) (rng_random_n (GENE_LENGTH c) s3).2).2)
      as (np & s' & Hnp).
    exists np, s'. apply bind_Ok. exists g1, s1. split; [done|].
    apply bind_Ok. exists g2, s2. split; [done|].
    apply bind_Ok. exists (c1, c2), s3. split; [done|].
    apply bind_Ok. eexists _, _. split; [by apply mutation_Ok|].
    apply bind_Ok. eexists _, _. split; [by apply mutation_Ok|]. done.
Qed.

(** *** The elites *)

Lemma argsort_range (fit : list Z) (i : nat) :
  i ∈ argsort fit ↔ i < length fit.
Proof. rewrite argsort_perm, elem_of_seq. lia. Qed.

Lemma argsort_NoDup (fit : list Z) : NoDup (argsort fit).
Proof. rewrite argsort_perm. apply NoDup_seq. Qed.

Lemma argsort_length (fit : list Z) : length (argsort fit) = length fit.
Proof. by rewrite argsort_perm, length_seq. Qed.

Lemma elite_idx_in_range (fit : list Z) :
  Forall (λ i, i < length fit) (elite_idx c fit).
Proof.
  apply Forall_forall. intros i Hi. apply argsort_range.
  eapply elem_of_sublist; [exact Hi|]. apply slice_last_sublist.
Qed.

Lemma elite_idx_NoDup (fit : list Z) : NoDup (elite_idx c fit).
Proof.
  eapply sublist_NoDup; [apply argsort_NoDup|apply slice_last_sublist].
Qed.

Lemma elite_idx_length (fit : list Z) :
  1 ≤ ELITE c → ELITE c ≤ length fit → length (elite_idx c fit) = ELITE c.
Proof.
  intros. unfold elite_idx. apply slice_last_length; [done|].
  by rewrite argsort_length.
Qed.

(** For [ELITE ≥ 1] no index left out beats an index chosen. *)
Lemma elite_idx_top (fit : list Z) (i j : nat) (fi fj : Z) :
  1 ≤ ELITE c →
  i ∈ elite_idx c fit → j ∉ elite_idx c fit →
  fit !! i = Some fi → fit !! j = Some fj → (fj ≤ fi)%Z.
Proof.
  intros HE Hi Hj Hfi Hfj. unfold elite_idx, slice_last in *.
  rewrite decide_False in Hi, Hj by lia.
  apply list_elem_of_lookup in Hi as [p Hp]. rewrite lookup_drop in Hp.
  assert (j ∈ argsort fit) as Hjin
    by (apply argsort_range; by eapply lookup_lt_Some).
  apply list_elem_of_lookup in Hjin as [q Hq].
  destruct (decide (q < length (argsort fit) - ELITE c)) as [Hlt|Hge].
  - eapply (argsort_sorted fit q (length (argsort fit) - ELITE c + p));
      [lia|done..].
  - exfalso. apply Hj. apply list_elem_of_lookup.
    exists (q - (length (argsort fit) - ELITE c)). rewrite lookup_drop.
    rewrite <- Hq. f_equal. lia.
Qed.

(** For [ELITE ≥ 1] an index of maximal fitness is chosen. *)
Lemma elite_idx_best (fit : list Z) (m : Z) :
  1 ≤ ELITE c → is_max m fit →
  ∃ y, y ∈ elite_idx c fit ∧ fit !! y = Some m.
Proof.
  intros HE [Hin Hall].
  assert (fit ≠ []) as Hne by (intros ->; by apply elem_of_nil in Hin).
  assert (0 < length fit) as Hlen by (destruct fit; [done|simpl; lia]).
  destruct (lookup_lt_is_Some_2 (argsort fit) (pred (length fit)))
    as [y Hy]; [rewrite argsort_length; lia|].
  assert (y < length fit) as Hylt
    by (apply argsort_range; by eapply list_elem_of_lookup_2).
  destruct (lookup_lt_is_Some_2 fit y Hylt) as [fy Hfy].
  exists y. split.
  - unfold elite_idx. apply slice_last_last; [done|].
    rewrite last_lookup, argsort_length. done.
  - rewrite Hfy. f_equal. rewrite Forall_forall in Hall.
    assert (fy ≤ m)%Z by (apply Hall; by eapply list_elem_of_lookup_2).
    apply list_elem_of_lookup in Hin as [x Hx].
    assert (x ∈ argsort fit) as Hxin
      by (apply argsort_range; by eapply lookup_lt_Some).
    apply list_elem_of_lookup in Hxin as [q Hq].
    assert (q < length fit)
      by (rewrite <- argsort_length; by eapply lookup_lt_Some).
    assert (m ≤ fy)%Z
      by (eapply (argsort_sorted fit q (pred (length fit))); [lia|done..]).
    lia.
Qed.

Lemma elites_Ok (pop : list (list Z)) :
  ∃ elites, fancy_index pop (elite_idx c (fitness pop)) = Ok elites.
Proof.
  apply fancy_index_in_range.
  pose proof (elite_idx_in_range (fitness pop)) as H.
  unfold fitness in H at 1. by rewrite length_fmap in H.
Qed.

Lemma elites_members (pop elites : list (list Z)) (idx : list nat) :
  fancy_index pop idx = Ok elites →
  length elites = length idx ∧ Forall (λ g, g ∈ pop) elites.
Proof.
  intros H. apply fancy_index_Forall2 in H. split.
  - symmetry. by eapply Forall2_length.
  - apply Forall_forall. intros g Hg.
    apply list_elem_of_lookup in Hg as [k Hk].
    destruct (Forall2_lookup_r _ _ _ _ _ H Hk) as (i & _ & Hi).
    by eapply list_elem_of_lookup_2.
Qed.

(** *** The loop body *)

(** What one successful pass of the body did: the row it appended, the
    elites it copied, the children it bred and the array it stacked. *)
Lemma generation_inv (gen : nat) (pop next : list (list Z))
    (row : GenerationRecord) (s s' : rng_state) :
  generation c gen pop s = Ok ((row, next), s') →
  ∃ best elites kids,
    array_max (fitness pop) = Ok best
    ∧ row = {| Generation := gen + 1; Best_Fitness := best;
               Average_Fitness := array_mean (fitness pop) |}
    ∧ fancy_index pop (elite_idx c (fitness pop)) = Ok elites
    ∧ breed c (POP_SIZE c - ELITE c) pop (fitness pop) [] s = Ok (kids, s')
    ∧ length kids = POP_SIZE c - ELITE c
    ∧ (rect pop → rect kids)
    ∧ vstack kids elites = Ok next.
Proof.
  unfold generation. intros H.
  apply bind_Ok in H as (best & s1 & Hbest & H).
  apply lift_Ok in Hbest as [Hbest ->].
  apply bind_Ok in H as (elites & s1 & Hel & H).
  apply lift_Ok in Hel as [Hel ->].
  apply bind_Ok in H as (kids & s2 & Hkids & H).
  apply bind_Ok in H as (nxt & s3 & Hst & H).
  apply lift_Ok in Hst as [Hst ->].
  apply ret_Ok in H as [[= -> ->] ->].
  destruct (breed_inv _ _ _ _ _ _ _ Hkids) as (kids' & Hk & Hlen & Hrect).
  simpl in Hk. subst kids'.
  by exists best, elites, kids.
Qed.

Lemma generation_Ok (gen : nat) (pop : list (list Z)) (s : rng_state) :
  rect pop → 1 ≤ TOUR_K c → TOUR_K c ≤ length pop →
  ELITE c < POP_SIZE c → 2 ≤ GENE_LENGTH c →
  ∃ row next s', generation c gen pop s = Ok ((row, next), s').
Proof.
  intros Hrect HK1 HKn HE HL.
  assert (length (fitness pop) = length pop) as Hfit
    by (unfold fitness; by rewrite length_fmap).
  destruct (array_max_Ok (fitness pop)) as [best Hbest].
  { intros Hnil. rewrite Hnil in Hfit. simpl in Hfit. lia. }
  destruct (elites_Ok pop) as [elites Hel].
  destruct (breed_Ok pop (fitness pop) (POP_SIZE c - ELITE c)
              Hrect Hfit HK1 HKn HL [] s) as (kids & s' & Hkids).
  destruct (breed_inv _ _ _ _ _ _ _ Hkids) as (kids' & Hk & Hlen & Hkrect).
  simpl in Hk. subst kids'. specialize (Hkrect Hrect).
  destruct (elites_members _ _ _ Hel) as [_ Hmem].
  eexists _, _, s'. unfold generation.
  apply bind_Ok. exists best, s. split; [by apply lift_Ok|].
  apply bind_Ok. exists elites, s. split; [by apply lift_Ok|].
  apply bind_Ok. exists kids, s'. split; [done|].
  apply bind_Ok. exists (kids ++ elites), s'. split; [|done].
  apply lift_Ok. split; [|done].
  apply (vstack_Ok (GENE_LENGTH c)); [|done|].
  - intros ->. simpl in Hlen. lia.
  - eapply Forall_impl; [exact Hmem|]. simpl. intros g Hg.
    unfold rect in Hrect. rewrite Forall_forall in Hrect. by apply Hrect.
Qed.

(** *** The run as a trace

    [steps gen pop s trace pop' s']: starting generation [gen] with
    population [pop] and generator state [s], the loop body succeeds once
    per entry of [trace], each entry pairing the population that entered
    the generation with the row recorded for it, and leaves population
    [pop'] and state [s']. *)
Inductive steps : nat → list (list Z) → rng_state →
    list (list (list Z) * GenerationRecord) →
    list (list Z) → rng_state → Prop :=
  | steps_done gen pop s : steps gen pop s [] pop s
  | steps_next gen pop s row next s1 trace pop' s' :
      generation c gen pop s = Ok ((row, next), s1) →
      steps (S gen) next s1 trace pop' s' →
      steps gen pop s ((pop, row) :: trace) pop' s'.

Lemma generations_steps (n gen : nat) :
  ∀ pop history s pop' history' s',
    generations c (seq gen n) pop history s = Ok ((pop', history'), s')
    ↔ ∃ trace, steps gen pop s trace pop' s'
               ∧ length trace = n ∧ history' = history ++ trace.*2.
Proof.
  revert gen. induction n as [|n IH]; intros gen pop history s pop' history' s';
    simpl.
  - rewrite ret_Ok. split.
    + intros [[= -> ->] ->]. exists []. rewrite app_nil_r.
      split; [constructor|done].
    + intros (trace & Hst & Hlen & ->). destruct trace; [|done].
      inversion Hst; subst. by rewrite app_nil_r.
  - rewrite bind_Ok. split.
    + intros ([row next] & s1 & Hgen & Hrest).
      apply IH in Hrest as (trace & Hst & Hlen & ->).
      exists ((pop, row) :: trace). split; [by econstructor|].
      split; [simpl; lia|]. by rewrite <- app_assoc.
    + intros (trace & Hst & Hlen & ->).
      inversion Hst as [|? ? ? row next s1 trace' ? ? Hgen Hrest]; subst;
        [done|].
      exists (row, next), s1. split; [done|]. apply IH.
      exists trace'. split; [done|]. split; [simpl in Hlen; lia|].
      by rewrite <- app_assoc.
Qed.

(** Every entry of a trace records its generation number and the maximum
    and mean fitness of the population that entered it. *)
Lemma steps_rows (gen : nat) pop s trace pop' s' :
  steps gen pop s trace pop' s' →
  ∀ i p row, trace !! i = Some (p, row) →
    Generation row = gen + i + 1
    ∧ is_max (Best_Fitness row) (fitness p)
    ∧ Average_Fitness row = array_mean (fitness p).
Proof.
  induction 1 as [|gen pop s row next s1 trace pop' s' Hgen _ IH];
    intros i p r Hi; [done|].
  destruct i as [|i]; simpl in Hi.
  - injection Hi as <- <-.
    apply generation_inv in Hgen
      as (best & elites & kids & Hbest & -> & _).
    simpl. split; [lia|]. split; [by apply array_max_spec|done].
  - destruct (IH i p r Hi) as (Hg & Hrest). split; [lia|done].
Qed.

(** The first entry holds the starting population, and each later entry
    the population the body built from the entry before it. *)
Lemma steps_chain (gen : nat) pop s trace pop' s' :
  steps gen pop s trace pop' s' →
  (trace.*1 ++ [pop']) !! 0 = Some pop
  ∧ ∀ i p row, trace !! i = Some (p, row) →
      ∃ next s1 s2, (trace.*1 ++ [pop']) !! (S i) = Some next
        ∧ generation c (gen + i) p s1 = Ok ((row, next), s2).
Proof.
  induction 1 as [|gen pop s row next s1 trace pop' s' Hgen Hst [IH0 IH]].
  - split; [done|]. intros i p row Hi. done.
  - split; [done|]. intros [|i] p r Hi; simpl in Hi.
    + injection Hi as <- <-. exists next, s, s1.
      rewrite Nat.add_0_r. split; [|done]. exact IH0.
    + destruct (IH i p r Hi) as (nx & sa & sb & Hnx & Hg).
      exists nx, sa, sb. split; [done|].
      by replace (gen + S i) with (S gen + i) by lia.
Qed.

(** *** Shape of the replacement population *)

Lemma vstack_elites (kids elites next : list (list Z)) :
  vstack kids elites = Ok next → ∃ top, next = top ++ elites.
Proof.
  unfold vstack. destruct (same_width _); [|done]. intros [= <-]. by eexists.
Qed.

Lemma elites_length (pop elites : list (list Z)) :
  fancy_index pop (elite_idx c (fitness pop)) = Ok elites →
  length elites
  = if decide (ELITE c = 0) then length pop
    else ELITE c `min` length pop.
Proof.
  intros H. apply elites_members in H as [-> _].
  unfold elite_idx, slice_last. rewrite <- (length_fmap row_sum pop).
  fold (fitness pop). case_decide.
  - apply argsort_length.
  - rewrite length_drop, argsort_length. lia.
Qed.

(** With children to stack, the next population is the children followed
    by the elites. *)
Lemma generation_next (gen : nat) (pop next : list (list Z))
    (row : GenerationRecord) (s s' : rng_state) :
  ELITE c < POP_SIZE c →
  generation c gen pop s = Ok ((row, next), s') →
  ∃ kids elites,
    next = kids ++ elites
    ∧ length kids = POP_SIZE c - ELITE c
    ∧ (rect pop → rect kids)
    ∧ fancy_index pop (elite_idx c (fitness pop)) = Ok elites.
Proof.
  intros HE H.
  apply generation_inv in H
    as (best & elites & kids & _ & _ & Hel & _ & Hlen & Hrect & Hst).
  exists kids, elites. split; [|done].
  apply (vstack_inv _ _ _ Hst). intros ->. simpl in Hlen. lia.
Qed.

Lemma generation_rect (gen : nat) (pop next : list (list Z))
    (row : GenerationRecord) (s s' : rng_state) :
  ELITE c < POP_SIZE c → rect pop →
  generation c gen pop s = Ok ((row, next), s') → rect next.
Proof.
  intros HE Hpop H.
  destruct (generation_next _ _ _ _ _ _ HE H)
    as (kids & elites & -> & _ & Hkids & Hel).
  apply Forall_app. split; [by apply Hkids|].
  destruct (elites_members _ _ _ Hel) as [_ Hmem].
  eapply Forall_impl; [exact Hmem|]. simpl. intros g Hg.
  unfold rect in Hpop. rewrite Forall_forall in Hpop. by apply Hpop.
Qed.

Lemma generation_length (gen : nat) (pop next : list (list Z))
    (row : GenerationRecord) (s s' : rng_state) :
  ELITE c < POP_SIZE c →
  generation c gen pop s = Ok ((row, next), s') →
  length next
  = POP_SIZE c - ELITE c
    + (if decide (ELITE c = 0) then length pop else ELITE c `min` length pop).
Proof.
  intros HE H.
  destruct (generation_next _ _ _ _ _ _ HE H)
    as (kids & elites & -> & Hlen & _ & Hel).
  by rewrite length_app, Hlen, (elites_length _ _ Hel).
Qed.

(** With at least one elite, every population of a trace keeps the size
    and the row length it started with. *)
Lemma steps_shape (gen : nat) pop s trace pop' s' :
  1 ≤ ELITE c → ELITE c < POP_SIZE c →
  steps gen pop s trace pop' s' →
  length pop = POP_SIZE c → rect pop →
  Forall (λ p, length p = POP_SIZE c ∧ rect p) (trace.*1 ++ [pop']).
Proof.
  intros HE1 HEN.
  induction 1 as [|gen pop s row next s1 trace pop' s' Hgen _ IH];
    intros Hlen Hrect.
  - by repeat constructor.
  - simpl. constructor; [done|]. apply IH.
    + rewrite (generation_length _ _ _ _ _ _ HEN Hgen).
      rewrite decide_False by lia. lia.
    + by eapply generation_rect.
Qed.

(** Without elites the slice [[-0:]] keeps every row: each generation
    adds [POP_SIZE] children to the rows it already had. *)
Lemma generation_grows (gen : nat) (pop next : list (list Z))
    (row : GenerationRecord) (s s' : rng_state) :
  ELITE c = 0 → 0 < POP_SIZE c →
  generation c gen pop s = Ok ((row, next), s') →
  length next = POP_SIZE c + length pop.
Proof.
  intros HE HN H.
  rewrite (generation_length _ _ _ _ _ _ ltac:(lia) H).
  rewrite decide_True by done. lia.
Qed.

(** *** The whole run *)

Lemma init_population_Ok (s : rng_state) :
  ∃ pop0 s0, init_population c s = Ok (pop0, s0)
    ∧ length pop0 = POP_SIZE c ∧ rect pop0.
Proof.
  unfold init_population, bind, integers, ret.
  rewrite decide_True by lia.
  pose proof (integers_length 0 2 (POP_SIZE c * GENE_LENGTH c) s) as Hlen.
  destruct (rng_integers 0 2 (POP_SIZE c * GENE_LENGTH c) s) as [flat s0].
  eexists _, _. split; [done|]. split; [apply reshape_length|].
  by apply reshape_rows.
Qed.

Lemma run_ga_inv (s s' : rng_state) (history : list GenerationRecord)
    (best_solution : list Z) (best_fitness : Z) :
  run_ga c s = Ok ((history, best_solution, best_fitness), s') →
  ∃ pop0 s0 trace pop',
    init_population c s = Ok (pop0, s0)
    ∧ steps 0 pop0 s0 trace pop' s'
    ∧ length trace = MAX_GEN c
    ∧ history = trace.*2
    ∧ ∃ best_index,
        argmax (fitness pop') = Ok best_index
        ∧ pop' !! best_index = Some best_solution
        ∧ fitness pop' !! best_index = Some best_fitness.
Proof.
  unfold run_ga. intros H.
  apply bind_Ok in H as (pop0 & s0 & Hinit & H).
  apply bind_Ok in H as ([pop' hist] & s1 & Hgens & H).
  apply bind_Ok in H as (j & s2 & Hj & H).
  apply lift_Ok in Hj as [Hj ->].
  apply bind_Ok in H as (g & s2 & Hg & H).
  apply subscript_Ok in Hg as [Hg ->].
  apply bind_Ok in H as (f & s2 & Hf & H).
  apply subscript_Ok in Hf as [Hf ->].
  apply ret_Ok in H as [[= -> -> ->] ->].
  apply generations_steps in Hgens as (trace & Hst & Hlen & ->).
  exists pop0, s0, trace, pop'. split; [done|]. split; [done|].
  split; [done|]. split; [done|]. by exists j.
Qed.

(** A configuration under which nothing in the run raises. *)
Definition valid (cfg : Config) : Prop :=
  1 ≤ TOUR_K cfg ∧ TOUR_K cfg ≤ POP_SIZE cfg
  ∧ ELITE cfg < POP_SIZE cfg ∧ 2 ≤ GENE_LENGTH cfg.

Lemma steps_Ok (n : nat) :
  valid c →
  ∀ gen pop s, rect pop → POP_SIZE c ≤ length pop →
    ∃ trace pop' s', steps gen pop s trace pop' s'
      ∧ length trace = n ∧ POP_SIZE c ≤ length pop'.
Proof.
  intros (HK1 & HKn & HE & HL).
  induction n as [|n IH]; intros gen pop s Hrect Hlen.
  - exists [], pop, s. split; [constructor|done].
  - destruct (generation_Ok gen pop s Hrect HK1 ltac:(lia) HE HL)
      as (row & next & s1 & Hgen).
    destruct (IH (S gen) next s1) as (trace & pop' & s' & Hst & Hl & Hp).
    + by eapply generation_rect.
    + rewrite (generation_length _ _ _ _ _ _ HE Hgen). case_decide; lia.
    + exists ((pop, row) :: trace), pop', s'.
      split; [by econstructor|]. split; [simpl; lia|done].
Qed.

(** Under a valid configuration [run_ga] returns. *)
Lemma run_ga_Ok (s : rng_state) :
  valid c → ∃ r s', run_ga c s = Ok (r, s').
Proof.
  intros Hv. destruct (init_population_Ok s) as (pop0 & s0 & Hinit & Hlen & Hrect).
  destruct (steps_Ok (MAX_GEN c) Hv 0 pop0 s0 Hrect ltac:(lia))
    as (trace & pop' & s' & Hst & Hl & Hp).
  destruct Hv as (HK1 & HKn & HE & HL).
  destruct (argmax_spec (fitness pop')) as (j & m & Hj & Hm & _).
  { intros Hnil. apply (f_equal length) in Hnil.
    unfold fitness in Hnil. rewrite length_fmap in Hnil. simpl in Hnil. lia. }
  assert (j < length pop') as Hjlt.
  { apply lookup_lt_Some in Hm. unfold fitness in Hm.
    by rewrite length_fmap in Hm. }
  destruct (lookup_lt_is_Some_2 pop' j Hjlt) as [g Hg].
  eexists _, s'. unfold run_ga.
  apply bind_Ok. exists pop0, s0. split; [done|].
  apply bind_Ok. exists (pop', [] ++ trace.*2), s'. split.
  { apply generations_steps. exists trace. by rewrite Hl. }
  apply bind_Ok. exists j, s'. split; [by apply lift_Ok|].
  apply bind_Ok. exists g, s'. split; [by apply subscript_Ok|].
  apply bind_Ok. exists m, s'. split; [by apply subscript_Ok|].
  done.
Qed.

(** C6. The history [run_ga] returns has exactly [MAX_GEN] rows; row [i]
    carries generation number [i + 1]; and the rows are those of the run's
    trace: row [i] holds the maximum and the mean of the fitness of the
    population that entered generation [i], the population with which
    the body was run to produce the next one. Under a valid
    configuration the run does return. *)
Theorem history_records_entering_population (s : rng_state) :
  (∀ history best_solution best_fitness s',
     run_ga c s = Ok ((history, best_solution, best_fitness), s') →
     length history = MAX_GEN c
     ∧ (∀ i row, history !! i = Some row → Generation row = i + 1)
     ∧ ∃ pop0 s0 trace pop',
         init_population c s = Ok (pop0, s0)
         ∧ steps 0 pop0 s0 trace pop' s'
         ∧ history = trace.*2
         ∧ ∀ i p row, trace !! i = Some (p, row) →
             is_max (Best_Fitness row) (fitness p)
             ∧ Average_Fitness row
               = float64_quotient (total (row_sum <$> p)) (Z.of_nat (length p))
             ∧ ∃ next s1 s2,
                 (trace.*1 ++ [pop']) !! (S i) = Some next
                 ∧ generation c i p s1 = Ok ((row, next), s2))
  ∧ (valid c → ∃ r s', run_ga c s = Ok (r, s')).
Proof.
  split; [|apply run_ga_Ok].
  intros history best_solution best_fitness s' Hrun.
  apply run_ga_inv in Hrun
    as (pop0 & s0 & trace & pop' & Hinit & Hst & Hlen & -> & _).
  split; [by rewrite length_fmap|]. split.
  - intros i row Hi. rewrite list_lookup_fmap in Hi.
    destruct (trace !! i) as [[p r]|] eqn:Ei; [|done].
    injection Hi as <-. simpl.
    by destruct (steps_rows _ _ _ _ _ _ Hst i p r Ei) as (-> & _).
  - exists pop0, s0, trace, pop'. split; [done|]. split; [done|].
    split; [done|]. intros i p row Hi.
    destruct (steps_rows _ _ _ _ _ _ Hst i p row Hi) as (_ & Hmax & Hmean).
    split; [done|]. split.
    { rewrite Hmean, array_mean_quotient. unfold fitness.
      by rewrite length_fmap. }
    destruct (steps_chain _ _ _ _ _ _ Hst) as [_ Hchain].
    exact (Hchain i p row Hi).
Qed.

(** *** Elitism *)

(** One pass of the body with [ELITE ≥ 1] cannot lower the maximum. *)
Lemma generation_keeps_best (gen : nat) (pop next : list (list Z))
    (row : GenerationRecord) (s s' : rng_state) (m m' : Z) :
  1 ≤ ELITE c →
  generation c gen pop s = Ok ((row, next), s') →
  is_max m (fitness pop) → is_max m' (fitness next) → (m ≤ m')%Z.
Proof.
  intros HE H Hm [_ Hall'].
  apply generation_inv in H
    as (best & elites & kids & _ & _ & Hel & _ & _ & _ & Hst).
  destruct (elite_idx_best (fitness pop) m HE Hm) as (y & Hy & Hfy).
  apply fancy_index_Forall2 in Hel.
  apply list_elem_of_lookup in Hy as [k Hk].
  destruct (Forall2_lookup_l _ _ _ _ _ Hel Hk) as (g & Hg & Hpg).
  assert (row_sum g = m) as <-.
  { unfold fitness in Hfy. rewrite list_lookup_fmap, Hpg in Hfy.
    by injection Hfy. }
  destruct (vstack_elites _ _ _ Hst) as [top ->].
  rewrite Forall_forall in Hall'. apply Hall'.
  unfold fitness. apply list_elem_of_fmap. exists g. split; [done|].
  apply elem_of_app. right. by eapply list_elem_of_lookup_2.
Qed.

Lemma steps_monotone (gen : nat) pop s trace pop' s' :
  1 ≤ ELITE c →
  steps gen pop s trace pop' s' →
  ∀ i r1 r2, trace.*2 !! i = Some r1 → trace.*2 !! (S i) = Some r2 →
    (Best_Fitness r1 ≤ Best_Fitness r2)%Z.
Proof.
  intros HE.
  induction 1 as [|gen pop s row next s1 trace pop' s' Hgen Hst IH];
    intros i r1 r2 H1 H2; [done|].
  destruct i as [|i]; simpl in H1, H2.
  - injection H1 as <-.
    destruct trace as [|[p2 row2] trace]; [done|]. simpl in H2.
    injection H2 as <-.
    inversion Hst as [|? ? ? ? ? ? ? ? ? Hgen2 _]; subst.
    pose proof Hgen as Hgen'.
    apply generation_inv in Hgen as (b1 & _ & _ & Hb1 & -> & _).
    apply generation_inv in Hgen2 as (b2 & _ & _ & Hb2 & -> & _).
    simpl. eapply generation_keeps_best; [done|exact Hgen'|..];
      by apply array_max_spec.
  - by apply (IH i).
Qed.

(** C4. With at least one elite, the best fitness recorded in the history
    never decreases from one generation to the next. *)
Theorem best_fitness_nondecreasing (s s' : rng_state)
    (history : list GenerationRecord) (best_solution : list Z)
    (best_fitness : Z) :
  1 ≤ ELITE c →
  run_ga c s = Ok ((history, best_solution, best_fitness), s') →
  ∀ i r1 r2, history !! i = Some r1 → history !! (S i) = Some r2 →
    (Best_Fitness r1 ≤ Best_Fitness r2)%Z.
Proof.
  intros HE Hrun.
  apply run_ga_inv in Hrun
    as (pop0 & s0 & trace & pop' & _ & Hst & _ & -> & _).
  by eapply steps_monotone.
Qed.

(** With [1 ≤ ELITE < POP_SIZE] every population of the run has
    [POP_SIZE] rows of [GENE_LENGTH] genes. *)
Lemma population_shape_with_elites (s s' : rng_state)
    (history : list GenerationRecord) (best_solution : list Z)
    (best_fitness : Z) :
  1 ≤ ELITE c → ELITE c < POP_SIZE c →
  run_ga c s = Ok ((history, best_solution, best_fitness), s') →
  ∃ pop0 s0 trace pop',
    init_population c s = Ok (pop0, s0)
    ∧ steps 0 pop0 s0 trace pop' s'
    ∧ history = trace.*2
    ∧ Forall (λ p, length p = POP_SIZE c ∧ rect p) (trace.*1 ++ [pop']).
Proof.
  intros HE1 HEN Hrun.
  apply run_ga_inv in Hrun
    as (pop0 & s0 & trace & pop' & Hinit & Hst & _ & -> & _).
  exists pop0, s0, trace, pop'. split; [done|]. split; [done|].
  split; [done|].
  destruct (init_population_Ok s) as (p & s1 & Hinit' & Hlen & Hrect).
  rewrite Hinit in Hinit'. injection Hinit' as <- <-.
  by eapply steps_shape.
Qed.

(** What the body does with the elites when [1 ≤ ELITE < POP_SIZE]:
    the indices chosen are the last [ELITE] entries of
    [np.argsort(fit)]; they are [ELITE] distinct rows, none of them less
    fit than a row left out, and they are the last [ELITE] rows of the
    next population, as they were. *)
Definition elitism (pop next : list (list Z)) : Prop :=
  let idx := elite_idx c (fitness pop) in
  idx = drop (length pop - ELITE c) (argsort (fitness pop))
  ∧ length idx = ELITE c
  ∧ NoDup idx
  ∧ (∀ i j gi gj, i ∈ idx → j ∉ idx →
       pop !! i = Some gi → pop !! j = Some gj →
       (row_sum gj ≤ row_sum gi)%Z)
  ∧ length next = POP_SIZE c
  ∧ Forall2 (λ i g, pop !! i = Some g) idx (drop (POP_SIZE c - ELITE c) next).

Lemma generation_elitism (gen : nat) (pop next : list (list Z))
    (row : GenerationRecord) (s s' : rng_state) :
  1 ≤ ELITE c → ELITE c < POP_SIZE c → length pop = POP_SIZE c →
  generation c gen pop s = Ok ((row, next), s') →
  elitism pop next.
Proof.
  intros HE1 HEN Hlen H.
  assert (length (fitness pop) = POP_SIZE c) as Hfit
    by (unfold fitness; by rewrite length_fmap).
  pose proof (generation_length _ _ _ _ _ _ HEN H) as Hnext.
  rewrite decide_False in Hnext by lia.
  destruct (generation_next _ _ _ _ _ _ HEN H)
    as (kids & elites & -> & Hkids & _ & Hel).
  unfold elitism. split.
  { unfold elite_idx, slice_last. rewrite decide_False by lia.
    by rewrite argsort_length, Hfit, Hlen. }
  split; [apply elite_idx_length; lia|].
  split; [apply elite_idx_NoDup|]. split; [|split; [lia|]].
  - intros i j gi gj Hi Hj Hgi Hgj.
    apply (elite_idx_top (fitness pop) i j); try done;
      unfold fitness; rewrite list_lookup_fmap; by simplify_option_eq.
  - rewrite drop_app_length'; [|done]. by apply fancy_index_Forall2.
Qed.

Lemma steps_elitism (gen : nat) pop s trace pop' s' :
  1 ≤ ELITE c → ELITE c < POP_SIZE c →
  steps gen pop s trace pop' s' →
  length pop = POP_SIZE c →
  ∀ i p next,
    (trace.*1 ++ [pop']) !! i = Some p →
    (trace.*1 ++ [pop']) !! (S i) = Some next →
    elitism p next.
Proof.
  intros HE1 HEN.
  induction 1 as [|gen pop s row next s1 trace pop' s' Hgen Hst IH];
    intros Hlen i p nx Hp Hnx.
  - destruct i; done.
  - pose proof (generation_elitism _ _ _ _ _ _ HE1 HEN Hlen Hgen) as Hel.
    destruct i as [|i].
    + change (Some pop = Some p) in Hp. injection Hp as <-.
      change ((trace.*1 ++ [pop']) !! 0 = Some nx) in Hnx.
      destruct (steps_chain _ _ _ _ _ _ Hst) as [H0 _].
      rewrite H0 in Hnx. by injection Hnx as <-.
    + change ((trace.*1 ++ [pop']) !! i = Some p) in Hp.
      change ((trace.*1 ++ [pop']) !! (S i) = Some nx) in Hnx.
      apply (IH ltac:(by destruct Hel as (_ & _ & _ & _ & ? & _)) i); done.
Qed.

(** C3, as the code has it. In a run with [1 ≤ ELITE < POP_SIZE], every
    one of the [MAX_GEN] generations chooses the rows at the last
    [ELITE] entries of [np.argsort(fit)]: [ELITE] distinct rows of the
    current population such that no row left out is fitter than a row
    chosen, and carries them, unmodified, into the next population as
    its last [ELITE] rows. Among equally fit rows the ones that
    [np.argsort] lists last are chosen. *)
Theorem elites_carried_forward (s s' : rng_state)
    (history : list GenerationRecord) (best_solution : list Z)
    (best_fitness : Z) :
  1 ≤ ELITE c → ELITE c < POP_SIZE c →
  run_ga c s = Ok ((history, best_solution, best_fitness), s') →
  ∃ pop0 s0 trace pop',
    init_population c s = Ok (pop0, s0)
    ∧ steps 0 pop0 s0 trace pop' s'
    ∧ length trace = MAX_GEN c
    ∧ history = trace.*2
    ∧ ∀ i p next,
        (trace.*1 ++ [pop']) !! i = Some p →
        (trace.*1 ++ [pop']) !! (S i) = Some next →
        elitism p next.
Proof.
  intros HE1 HEN Hrun.
  apply run_ga_inv in Hrun
    as (pop0 & s0 & trace & pop' & Hinit & Hst & Hgens & -> & _).
  exists pop0, s0, trace, pop'. split; [done|]. split; [done|].
  split; [done|]. split; [done|].
  destruct (init_population_Ok s) as (p & s1 & Hinit' & Hlen & _).
  rewrite Hinit in Hinit'. injection Hinit' as <- <-.
  by eapply steps_elitism.
Qed.

End Generation.

(** ** q1: runs of the model *)

(** A small configuration with one elite, run on the tape generator and
    the stable sort. *)
Definition small_run : Config :=
  {| POP_SIZE := 4; GENE_LENGTH := 4; MAX_GEN := 3; PC := 9 # 10;
     PM := 1 # 10; ELITE := 1; TOUR_K := 2; SEED := 42 |}.

Definition small_outcome : RunResult * list Z :=
  Eval vm_compute in
    match run_ga (G := TapeGenerator) (AS := StableSort) small_run
            (tape_default_rng 42) with
    | Ok r => r
    | Raise _ => (([], [], 0%Z), [])
    end.

Definition small_history : list GenerationRecord := small_outcome.1.1.1.

Lemma small_run_Ok :
  run_ga (G := TapeGenerator) (AS := StableSort) small_run (tape_default_rng 42)
  = Ok ((small_history, small_outcome.1.1.2, small_outcome.1.2), small_outcome.2).
Proof. vm_compute. reflexivity. Qed.

Example small_history_rows :
  small_history
  = [ {| Generation := 1; Best_Fitness := 4;
         Average_Fitness := float64_quotient 9 4 |};
      {| Generation := 2; Best_Fitness := 4;
         Average_Fitness := float64_quotient 13 4 |};
      {| Generation := 3; Best_Fitness := 4;
         Average_Fitness := float64_quotient 13 4 |} ].
Proof. vm_compute. reflexivity. Qed.

Lemma small_run_valid : valid small_run.
Proof. unfold valid. simpl. lia. Qed.

(** [history_records_entering_population] on the small run: its three
    rows are numbered 1, 2, 3 and are the rows of a trace of three
    generations from the initial population, each with the maximum and
    the float64 mean of the population that entered it; and the run
    returns. *)
Lemma history_records_entering_population_witness :
  (length small_history = 3
   ∧ (∀ i row, small_history !! i = Some row → Generation row = i + 1)
   ∧ ∃ pop0 s0 trace pop',
       init_population (G := TapeGenerator) small_run (tape_default_rng 42)
       = Ok (pop0, s0)
       ∧ steps (G := TapeGenerator) (AS := StableSort) small_run
           0 pop0 s0 trace pop' small_outcome.2
       ∧ small_history = trace.*2
       ∧ ∀ i p row, trace !! i = Some (p, row) →
           is_max (Best_Fitness row) (fitness p)
           ∧ Average_Fitness row
             = float64_quotient (total (row_sum <$> p)) (Z.of_nat (length p))
           ∧ ∃ next s1 s2,
               (trace.*1 ++ [pop']) !! (S i) = Some next
               ∧ generation (G := TapeGenerator) (AS := StableSort) small_run
                   i p s1 = Ok ((row, next), s2))
  ∧ ∃ r s', run_ga (G := TapeGenerator) (AS := StableSort) small_run
              (tape_default_rng 42) = Ok (r, s').
Proof.
  split.
  - exact (proj1 (history_records_entering_population
                    (G := TapeGenerator) (AS := StableSort)
                    small_run (tape_default_rng 42))
             _ _ _ _ small_run_Ok).
  - exact (proj2 (history_records_entering_population
                    (G := TapeGenerator) (AS := StableSort)
                    small_run (tape_default_rng 42))
             small_run_valid).
Defined.

(** [best_fitness_nondecreasing] on the small run. *)
Lemma best_fitness_nondecreasing_witness :
  1 ≤ ELITE small_run
  ∧ ∀ i r1 r2, small_history !! i = Some r1 → small_history !! (S i) = Some r2 →
      (Best_Fitness r1 ≤ Best_Fitness r2)%Z.
Proof.
  split; [simpl; lia|].
  apply (best_fitness_nondecreasing (G := TapeGenerator) (AS := StableSort)
           small_run _ _ _ _ _ ltac:(simpl; lia) small_run_Ok).
Defined.

(** [elites_carried_forward] on the small run. *)
Lemma elites_carried_forward_witness :
  1 ≤ ELITE small_run ∧ ELITE small_run < POP_SIZE small_run
  ∧ ∃ pop0 s0 trace pop',
      init_population (G := TapeGenerator) small_run (tape_default_rng 42)
      = Ok (pop0, s0)
      ∧ steps (G := TapeGenerator) (AS := StableSort) small_run
          0 pop0 s0 trace pop' small_outcome.2
      ∧ length trace = 3
      ∧ small_history = trace.*2
      ∧ ∀ i p next,
          (trace.*1 ++ [pop']) !! i = Some p →
          (trace.*1 ++ [pop']) !! (S i) = Some next →
          elitism (AS := StableSort) small_run p next.
Proof.
  split; [simpl; lia|]. split; [simpl; lia|].
  apply (elites_carried_forward (G := TapeGenerator) (AS := StableSort)
           small_run _ _ _ _ _ ltac:(simpl; lia) ltac:(simpl; lia)
           small_run_Ok).
Defined.

(** *** Without elites *)

(** The small configuration with [ELITE = 0]. *)
Definition no_elites : Config :=
  {| POP_SIZE := 4; GENE_LENGTH := 4; MAX_GEN := 2; PC := 9 # 10;
     PM := 1 # 10; ELITE := 0; TOUR_K := 2; SEED := 42 |}.

Definition no_elites_outcome : RunResult * list Z :=
  Eval vm_compute in
    match run_ga (G := TapeGenerator) (AS := StableSort) no_elites
            (tape_default_rng 42) with
    | Ok r => r
    | Raise _ => (([], [], 0%Z), [])
    end.

Lemma no_elites_run_Ok :
  run_ga (G := TapeGenerator) (AS := StableSort) no_elites (tape_default_rng 42)
  = Ok ((no_elites_outcome.1.1.1, no_elites_outcome.1.1.2,
         no_elites_outcome.1.2), no_elites_outcome.2).
Proof. vm_compute. reflexivity. Qed.

(** Along a trace without elites the [i]-th population has
    [i * POP_SIZE] rows more than the first. *)
Lemma steps_grow {G : Generator} {AS : ArgSort} (c : Config)
    (gen : nat) pop s trace pop' s' :
  ELITE c = 0 → 0 < POP_SIZE c →
  steps c gen pop s trace pop' s' →
  length <$> (trace.*1 ++ [pop'])
  = (λ i, length pop + i * POP_SIZE c) <$> seq 0 (S (length trace)).
Proof.
  intros HE HN.
  induction 1 as [|gen pop s row next s1 trace pop' s' Hgen _ IH].
  - simpl. f_equal. lia.
  - change (length pop :: (length <$> (trace.*1 ++ [pop']))
            = (length pop + 0 * POP_SIZE c)
              :: ((λ i, length pop + i * POP_SIZE c)
                    <$> seq 1 (S (length trace)))).
    f_equal; [lia|]. rewrite IH.
    rewrite (generation_grows c _ _ _ _ _ _ HE HN Hgen).
    rewrite <- (fmap_S_seq 0), <- list_fmap_compose.
    apply list_fmap_ext. intros _ i _. simpl. lia.
Qed.

(** C5 fails at [ELITE = 0]: [np.argsort(fit)[-0:]] is the whole index
    array, so every row of the population is stacked under the
    [POP_SIZE] children. In the run below the populations have 4, 8 and
    12 rows, while [run_ga] still returns its [MAX_GEN] history rows. *)
Theorem population_grows_without_elites :
  ∃ pop0 s0 trace pop' s',
    init_population (G := TapeGenerator) no_elites (tape_default_rng 42)
    = Ok (pop0, s0)
    ∧ steps (G := TapeGenerator) (AS := StableSort) no_elites
        0 pop0 s0 trace pop' s'
    ∧ run_ga (G := TapeGenerator) (AS := StableSort) no_elites
        (tape_default_rng 42)
      = Ok ((trace.*2, no_elites_outcome.1.1.2, no_elites_outcome.1.2), s')
    ∧ length <$> (trace.*1 ++ [pop']) = [4; 8; 12].
Proof.
  pose proof no_elites_run_Ok as Hrun.
  destruct (run_ga_inv _ _ _ _ _ _ Hrun)
    as (pop0 & s0 & trace & pop' & Hinit & Hst & Hlen & Hhist & _).
  exists pop0, s0, trace, pop', no_elites_outcome.2.
  split; [done|]. split; [done|]. split; [by rewrite <- Hhist|].
  rewrite (steps_grow (G := TapeGenerator) (AS := StableSort) no_elites
             _ _ _ _ _ _ eq_refl ltac:(simpl; lia) Hst).
  destruct (init_population_Ok (G := TapeGenerator) no_elites
              (tape_default_rng 42)) as (p & s1 & Hinit' & Hp & _).
  rewrite Hinit in Hinit'. injection Hinit' as <- <-.
  rewrite Hlen, Hp. reflexivity.
Qed.

(** *** Ties among the elites *)

(** Three chromosomes, the first two equally fit, one elite, and
    operators that copy ([PC = PM = 0]). *)
Definition tied_run : Config :=
  {| POP_SIZE := 3; GENE_LENGTH := 4; MAX_GEN := 1; PC := 0; PM := 0;
     ELITE := 1; TOUR_K := 1; SEED := 42 |}.

Definition tied_rows : list (list Z) :=
  [[1; 1; 0; 0]; [0; 0; 1; 1]; [1; 0; 0; 0]]%Z.

(** C3 as stated fails at [ELITE = 0], which [0 ≤ E < N] allows. The
    slice [[-0:]] is the whole index array, whatever the sort, so every
    index of the population is chosen where the claim has no elite at
    all: on [four_rows] the four indices are chosen, and every
    generation from these rows, with any generator, puts the four rows
    under its four children. *)
Lemma no_elites_chooses_every_row :
  ELITE no_elites = 0
  ∧ (∀ AS : ArgSort,
       elite_idx (AS := AS) no_elites (fitness four_rows) ≡ₚ [0; 1; 2; 3])
  ∧ ∀ (G : Generator) (AS : ArgSort) (s s' : rng_state) row next,
      generation no_elites 0 four_rows s = Ok ((row, next), s') →
      length next = 8 ∧ ∀ g, g ∈ four_rows → g ∈ drop 4 next.
Proof.
  split; [done|]. split.
  - intros AS. unfold elite_idx, slice_last. simpl. apply argsort_perm.
  - intros G AS s s' row next H.
    destruct (generation_next no_elites _ _ _ _ _ _ ltac:(simpl; lia) H)
      as (kids & elites & -> & Hk & _ & Hel).
    pose proof (elites_length no_elites _ _ Hel) as Hlen.
    simpl in Hk, Hlen. split; [rewrite length_app; lia|].
    rewrite drop_app_length' by done. intros g Hg.
    apply list_elem_of_lookup in Hg as [i Hi].
    assert (i ∈ elite_idx no_elites (fitness four_rows)) as Hin.
    { unfold elite_idx, slice_last. simpl. apply argsort_range.
      apply lookup_lt_Some in Hi. done. }
    apply list_elem_of_lookup in Hin as [k Hk'].
    apply fancy_index_Forall2 in Hel.
    destruct (Forall2_lookup_l _ _ _ _ _ Hel Hk') as (g' & Hg' & Hig).
    rewrite Hi in Hig. injection Hig as <-. by eapply list_elem_of_lookup_2.
Qed.

(** Among equally fit rows the elite is the one [np.argsort] lists
    last. On [tied_rows] the fitness array is 2, 2, 1: a sort that keeps
    equal entries in index order returns 2, 0, 1 and row 1 (0011) is
    carried forward. The contract of the default sort leaves the order
    of equal entries open: a sort that meets it and lists them the other
    way round keeps row 0 (1100) on the same rows and the same draws. *)
Lemma tie_order_follows_sort :
  elite_idx (AS := StableSort) tied_run (fitness tied_rows) = [1]
  ∧ elite_idx (AS := ReversingSort) tied_run (fitness tied_rows) = [0]
  ∧ generation (G := TapeGenerator) (AS := StableSort) tied_run 0 tied_rows []
    = Ok (({| Generation := 1; Best_Fitness := 2;
              Average_Fitness := float64_quotient 5 3 |},
           [[1; 1; 0; 0]; [1; 1; 0; 0]; [0; 0; 1; 1]]%Z), [])
  ∧ generation (G := TapeGenerator) (AS := ReversingSort) tied_run 0 tied_rows []
    = Ok (({| Generation := 1; Best_Fitness := 2;
              Average_Fitness := float64_quotient 5 3 |},
           [[1; 1; 0; 0]; [1; 1; 0; 0]; [1; 1; 0; 0]]%Z), []).
Proof.
  split; [vm_compute; reflexivity|]. split; [vm_compute; reflexivity|].
  split; vm_compute; reflexivity.
Qed.

(** ** q1: determinism

    Two executions of the script own one generator each. [same_draws R]
    says that generator states related by [R] answer every call with the
    same draw and stay related: what two generators created from one
    seed do. *)

Section Determinism.
Context {G1 G2 : Generator} {AS : ArgSort}.
Variable R : @rng_state G1 → @rng_state G2 → Prop.

Record same_draws : Prop := {
  same_random : ∀ s1 s2, R s1 s2 →
    (rng_random s1).1 = (rng_random s2).1
    ∧ R (rng_random s1).2 (rng_random s2).2;
  same_random_n : ∀ n s1 s2, R s1 s2 →
    (rng_random_n n s1).1 = (rng_random_n n s2).1
    ∧ R (rng_random_n n s1).2 (rng_random_n n s2).2;
  same_integers : ∀ low high n s1 s2, R s1 s2 →
    (rng_integers low high n s1).1 = (rng_integers low high n s2).1
    ∧ R (rng_integers low high n s1).2 (rng_integers low high n s2).2;
  same_choice : ∀ n k s1 s2, R s1 s2 →
    (rng_choice n k s1).1 = (rng_choice n k s2).1
    ∧ R (rng_choice n k s1).2 (rng_choice n k s2).2
}.

(** Two outcomes agree: the same value with related states, or the same
    exception. *)
Definition agree {A} (r1 : result (A * @rng_state G1))
    (r2 : result (A * @rng_state G2)) : Prop :=
  match r1, r2 with
  | Ok (a1, s1), Ok (a2, s2) => a1 = a2 ∧ R s1 s2
  | Raise e1, Raise e2 => e1 = e2
  | _, _ => False
  end.

(** Two computations agree from related states. *)
Definition related {A} (m1 : M (G := G1) A) (m2 : M (G := G2) A) : Prop :=
  ∀ s1 s2, R s1 s2 → agree (m1 s1) (m2 s2).

Lemma related_ret {A} (a : A) : related (ret a) (ret a).
Proof. by intros s1 s2 HR. Qed.

Lemma related_raise {A} (e : exn) : related (raise (A := A) e) (raise e).
Proof. by intros s1 s2 HR. Qed.

Lemma related_lift {A} (r : result A) : related (lift r) (lift r).
Proof. intros s1 s2 HR. unfold lift, agree. by destruct r. Qed.

Lemma related_subscript {A} (a : list A) (i : nat) :
  related (subscript a i) (subscript a i).
Proof.
  unfold subscript. destruct (a !! i); [apply related_ret|apply related_raise].
Qed.

Lemma related_bind {A B} (m1 : M (G := G1) A) (m2 : M (G := G2) A)
    (f1 : A → M (G := G1) B) (f2 : A → M (G := G2) B) :
  related m1 m2 → (∀ a, related (f1 a) (f2 a)) →
  related (bind m1 f1) (bind m2 f2).
Proof.
  intros Hm Hf s1 s2 HR. unfold bind. specialize (Hm s1 s2 HR).
  unfold agree in Hm.
  destruct (m1 s1) as [[a1 t1]|e1], (m2 s2) as [[a2 t2]|e2]; try done.
  destruct Hm as [-> Ht]. by apply Hf.
Qed.

Hypothesis HR : same_draws.

Lemma related_random : related random random.
Proof.
  intros s1 s2 Hs. unfold random, agree.
  destruct (same_random HR s1 s2 Hs) as [Hv Hn].
  destruct (rng_random s1), (rng_random s2). by simpl in *.
Qed.

Lemma related_random_n (n : nat) : related (random_n n) (random_n n).
Proof.
  intros s1 s2 Hs. unfold random_n, agree.
  destruct (same_random_n HR n s1 s2 Hs) as [Hv Hn].
  destruct (rng_random_n n s1), (rng_random_n n s2). by simpl in *.
Qed.

Lemma related_integers (low high : Z) (n : nat) :
  related (integers low high n) (integers low high n).
Proof.
  intros s1 s2 Hs. unfold integers, agree. case_decide; [|done].
  destruct (same_integers HR low high n s1 s2 Hs) as [Hv Hn].
  destruct (rng_integers low high n s1), (rng_integers low high n s2).
  by simpl in *.
Qed.

Lemma related_choice (n k : nat) : related (choice n k) (choice n k).
Proof.
  intros s1 s2 Hs. unfold choice, agree. case_decide; [|done].
  destruct (same_choice HR n k s1 s2 Hs) as [Hv Hn].
  destruct (rng_choice n k s1), (rng_choice n k s2). by simpl in *.
Qed.

Variable c : Config.

Lemma related_init_population :
  related (init_population c) (init_population c).
Proof.
  unfold init_population. apply related_bind; [apply related_integers|].
  intros flat. apply related_ret.
Qed.

Lemma related_tournament_selection (pop : list (list Z)) (fit : list Z) :
  related (tournament_selection c pop fit) (tournament_selection c pop fit).
Proof.
  unfold tournament_selection.
  apply related_bind; [apply related_choice|]. intros candidates.
  apply related_bind; [apply related_lift|]. intros sub.
  apply related_bind; [apply related_lift|]. intros best.
  apply related_bind; [apply related_subscript|]. intros winner.
  apply related_subscript.
Qed.

Lemma related_crossover (p1 p2 : list Z) :
  related (crossover c p1 p2) (crossover c p1 p2).
Proof.
  unfold crossover. apply related_bind; [apply related_random|]. intros r.
  destruct (Qltb r (PC c)); [|apply related_ret].
  apply related_bind; [apply related_integers|]. intros cuts.
  destruct (sorted cuts) as [|x [|y [|z l]]];
    first [apply related_ret | apply related_raise].
Qed.

Lemma related_mutation (child : list Z) :
  related (mutation c child) (mutation c child).
Proof.
  unfold mutation. apply related_bind; [apply related_random_n|]. intros u.
  repeat case_decide; first [apply related_ret | apply related_raise].
Qed.

Lemma related_breed (pop : list (list Z)) (fit : list Z) (n : nat) :
  ∀ acc, related (breed c n pop fit acc) (breed c n pop fit acc).
Proof.
  induction n as [n IH] using lt_wf_ind. intros acc.
  destruct n as [|[|n]]; simpl.
  - apply related_ret.
  - apply related_bind; [apply related_tournament_selection|]. intros parent1.
    apply related_bind; [apply related_tournament_selection|]. intros parent2.
    apply related_bind; [apply related_crossover|]. intros [child1 child2].
    apply related_bind; [apply related_mutation|]. intros m1.
    apply related_ret.
  - apply related_bind; [apply related_tournament_selection|]. intros parent1.
    apply related_bind; [apply related_tournament_selection|]. intros parent2.
    apply related_bind; [apply related_crossover|]. intros [child1 child2].
    apply related_bind; [apply related_mutation|]. intros m1.
    apply related_bind; [apply related_mutation|]. intros m2.
    apply IH. lia.
Qed.

Lemma related_generation (gen : nat) (pop : list (list Z)) :
  related (generation c gen pop) (generation c gen pop).
Proof.
  unfold generation.
  apply related_bind; [apply related_lift|]. intros best.
  apply related_bind; [apply related_lift|]. intros elites.
  apply related_bind; [apply related_breed|]. intros new_population.
  apply related_bind; [apply related_lift|]. intros next.
  apply related_ret.
Qed.

Lemma related_generations (gens : list nat) :
  ∀ pop history,
    related (generations c gens pop history) (generations c gens pop history).
Proof.
  induction gens as [|gen gens IH]; intros pop history; simpl.
  - apply related_ret.
  - apply related_bind; [apply related_generation|]. intros [row next].
    apply IH.
Qed.

(** Generators that make the same draws give the same run: the same
    history, best chromosome and best fitness, or the same exception. *)
Lemma related_run_ga : related (run_ga c) (run_ga c).
Proof.
  unfold run_ga.
  apply related_bind; [apply related_init_population|]. intros pop0.
  apply related_bind; [apply related_generations|]. intros [pop history].
  apply related_bind; [apply related_lift|]. intros best_index.
  apply related_bind; [apply related_subscript|]. intros best_solution.
  apply related_bind; [apply related_subscript|]. intros best_fitness.
  apply related_ret.
Qed.

End Determinism.

(** C1. Two independent executions with the same configuration, seed
    included, each on its own generator, return the same [RunResult]:
    the same history (generation number, best and mean fitness of every
    generation), the same best chromosome and the same best fitness; if
    one raises, the other raises the same exception. The two generators
    are any two that make the same draws from the same seed. *)
Theorem script_deterministic {G1 G2 : Generator} {AS : ArgSort}
    (R : @rng_state G1 → @rng_state G2 → Prop) (c1 c2 : Config) :
  same_draws R →
  (∀ seed, R (default_rng seed) (default_rng seed)) →
  c1 = c2 →
  script (G := G1) c1 = script (G := G2) c2.
Proof.
  intros HR Hseed <-. unfold script.
  pose proof (related_run_ga R HR c1 _ _ (Hseed (SEED c1))) as H.
  unfold agree in H.
  destruct (run_ga c1 (default_rng (SEED c1))) as [[r1 s1]|e1],
           (run_ga c1 (default_rng (SEED c1))) as [[r2 s2]|e2]; try done.
  - by destruct H as [-> _].
  - by rewrite H.
Qed.

(** Equal states of one generator make the same draws. *)
Lemma same_draws_eq {G : Generator} : same_draws (G1 := G) (G2 := G) eq.
Proof. by split; intros; subst. Qed.

(** [script_deterministic] for two executions of the small run on the
    tape generator. *)
Lemma script_deterministic_witness :
  script (G := TapeGenerator) (AS := StableSort) small_run
  = script (G := TapeGenerator) (AS := StableSort) small_run.
Proof.
  apply (script_deterministic (G1 := TapeGenerator) (G2 := TapeGenerator)
           eq small_run small_run same_draws_eq).
  - reflexivity.
  - reflexivity.
Defined.

(** The generator is module state: a second call of [run_ga] within one
    execution continues the stream where the first call left it, and
    returns another result. Independent executions each start from
    [default_rng(SEED)]. *)
Example second_call_continues_stream :
  match run_ga (G := TapeGenerator) (AS := StableSort) small_run
          small_outcome.2 with
  | Ok (r, _) => Some r
  | Raise _ => None
  end
  = Some ([ {| Generation := 1; Best_Fitness := 2;
               Average_Fitness := float64_quotient 7 4 |};
            {| Generation := 2; Best_Fitness := 2;
               Average_Fitness := float64_quotient 8 4 |};
            {| Generation := 3; Best_Fitness := 2;
               Average_Fitness := float64_quotient 7 4 |} ],
          [1; 0; 1; 0]%Z, 2%Z).
Proof. vm_compute. reflexivity. Qed.

(** * Further properties of the rule engine *)

Local Open Scope Z_scope.

Lemma matching_inv (facts : gmap string value) rules ms :
  matching facts rules = Ok ms →
  ms = filter (matches facts) rules
  ∧ Forall (λ r, is_Ok (rule_matches facts r)) rules.
Proof.
  revert ms. induction rules as [|r rs IH]; intros ms; simpl.
  - intros [= <-]. by split.
  - destruct (rule_matches facts r) as [b|e] eqn:E; [|done].
    destruct (matching facts rs) as [ms'|e]; [|done].
    destruct (IH ms' eq_refl) as [-> Hok]. intros [= <-]. split.
    + destruct b.
      * by rewrite filter_cons_True.
      * rewrite filter_cons_False; [done|]. unfold matches. congruence.
    + constructor; [by exists b|done].
Qed.

Lemma sort_by_priority_nil l : sort_by_priority l = [] → l = [].
Proof.
  intros H. pose proof (sort_by_priority_perm l) as Hp. rewrite H in Hp.
  by apply Permutation_nil_l in Hp.
Qed.

Lemma run_rules_inv (facts : gmap string value) rules a fired :
  run_rules facts rules = Ok (a, fired) →
  fired = sort_by_priority (filter (matches facts) rules)
  ∧ a = match fired with
        | [] => default_action
        | best :: _ => rule_action best
        end.
Proof.
  unfold run_rules. destruct (matching facts rules) as [ms|e] eqn:E; [|done].
  apply matching_inv in E as [-> _].
  destruct (filter (matches facts) rules) as [|m ms] eqn:Ef.
  - by intros [= <- <-].
  - destruct (sort_by_priority (m :: ms)) as [|best rest]; [done|].
    by intros [= <- <-].
Qed.

(** [run_rules] also returns the rules that fired: the matching rules,
    each once, by non-increasing priority, rules of equal priority in the
    order they were declared; the action is that of the first of them,
    or the default when none fired. *)
Theorem fired_rules_by_priority (facts : gmap string value) rules a fired :
  run_rules facts rules = Ok (a, fired) →
  fired ≡ₚ filter (matches facts) rules
  ∧ StronglySorted (λ r1 r2, priority r2 ≤ priority r1) fired
  ∧ (∀ p, filter (λ r, priority r = p) fired
          = filter (λ r, priority r = p) (filter (matches facts) rules))
  ∧ a = match fired with
        | [] => default_action
        | best :: _ => rule_action best
        end.
Proof.
  intros H. apply run_rules_inv in H as [-> Ha].
  split; [apply sort_by_priority_perm|].
  split; [apply sort_by_priority_sorted|].
  split; [intros p; apply sort_by_priority_stable|done].
Qed.

(** [fired_rules_by_priority] on the shipped table for a hot, humid night. *)
Lemma fired_rules_by_priority_witness :
  ∃ a fired,
    run_rules (ui_facts 31 80 "OCCUPIED" "NIGHT" false) DEFAULT_RULES
    = Ok (a, fired)
    ∧ fmap priority fired = [85; 80; 75]
    ∧ StronglySorted (λ r1 r2, priority r2 ≤ priority r1) fired.
Proof.
  destruct (run_rules (ui_facts 31 80 "OCCUPIED" "NIGHT" false) DEFAULT_RULES)
    as [[a fired]|e] eqn:E; [|by vm_compute in E].
  exists a, fired. split; [done|].
  split; [by vm_compute in E; injection E as <- <-|].
  exact (proj1 (proj2 (fired_rules_by_priority _ _ _ _ E))).
Defined.

(** The only exception an evaluation raises is the [TypeError] of an
    ordering comparison. *)
Lemma OPS_lookup_Some op f :
  OPS !! op = Some f →
  f = op_eq ∨ f = op_ne ∨ f = op_gt ∨ f = op_ge ∨ f = op_lt ∨ f = op_le.
Proof.
  intros H. unfold OPS in H. apply elem_of_list_to_map_2 in H.
  unfold OPS_table in H.
  repeat (apply elem_of_cons in H as [ [= -> ->] | H ]; [tauto|]).
  by apply elem_of_nil in H.
Qed.

Lemma py_order_Raise num str a b e : py_order num str a b = Raise e → e = TypeError.
Proof.
  unfold py_order. destruct (as_num a), (as_num b), a, b; simpl;
    by (intros [= <-] || intro).
Qed.

Lemma evaluate_condition_Raise (facts : gmap string value) c e :
  evaluate_condition facts c = Raise e → e = TypeError.
Proof.
  destruct c as [[field op] v]. unfold evaluate_condition.
  destruct (facts !! field) as [x|]; [|done].
  destruct (OPS !! op) as [f|] eqn:Ef; [|done].
  apply OPS_lookup_Some in Ef as [-> | [-> | [-> | [-> | [-> | ->]]]]];
    try done; apply py_order_Raise.
Qed.

Lemma all_conditions_Raise (facts : gmap string value) conds e :
  all_conditions facts conds = Raise e → e = TypeError.
Proof.
  induction conds as [|c cs IH]; simpl; [done|].
  destruct (evaluate_condition facts c) as [[]|e'] eqn:E; try done.
  intros [= <-]. by eapply evaluate_condition_Raise.
Qed.

(** [run_rules] raises exactly when the evaluation of some rule raises,
    and then it raises [TypeError]: a rule that compares a fact with a
    literal of another type is not skipped, it aborts the whole call. *)
Theorem run_rules_raises_iff (facts : gmap string value) rules :
  ((∃ e, run_rules facts rules = Raise e)
   ↔ Exists (λ r, ∃ e, rule_matches facts r = Raise e) rules)
  ∧ (∀ e, run_rules facts rules = Raise e → e = TypeError).
Proof.
  assert (∀ e, run_rules facts rules = Raise e →
               matching facts rules = Raise e) as Hm.
  { intros e. unfold run_rules.
    destruct (matching facts rules) as [[|m ms]|e']; [done| |by intros [= ->]].
    destruct (sort_by_priority (m :: ms)) eqn:Es; [|done].
    by apply sort_by_priority_nil in Es. }
  split; [split|].
  - intros [e He]. apply Hm, matching_Raise in He as (r & e' & Hin & Hr).
    apply Exists_exists. exists r. split; [done|by exists e'].
  - intros Hex. destruct (run_rules facts rules) as [[a fired]|e] eqn:E;
      [|by exists e].
    exfalso. unfold run_rules in E.
    destruct (matching facts rules) as [ms|e] eqn:Em; [|done].
    apply matching_inv in Em as [_ Hok].
    apply Exists_exists in Hex as (r & Hin & e & Hr).
    rewrite Forall_forall in Hok. destruct (Hok r Hin) as [b Hb]. congruence.
  - intros e He. apply Hm in He. clear Hm. revert e He.
    induction rules as [|r' rs IH]; intros e; simpl; [done|].
    destruct (rule_matches facts r') as [b|e1] eqn:E1.
    + destruct (matching facts rs) as [ms|e2] eqn:E2; [done|].
      intros [= <-]. by apply IH.
    + intros [= <-]. by eapply all_conditions_Raise.
Qed.

(** [all] stops at the first condition that is not [True]: what follows
    it is not evaluated, so a condition that would raise can be guarded
    by an earlier one. *)
Theorem rule_matches_short_circuit (facts : gmap string value) r l1 c l2 :
  conditions r = l1 ++ c :: l2 →
  Forall (λ c', evaluate_condition facts c' = Ok true) l1 →
  (evaluate_condition facts c = Ok false → rule_matches facts r = Ok false)
  ∧ (∀ e, evaluate_condition facts c = Raise e → rule_matches facts r = Raise e).
Proof.
  intros Hc Hl1. unfold rule_matches. rewrite Hc. clear Hc.
  induction Hl1 as [|c' l1 Hc' _ IH]; simpl.
  - split; [by intros ->|by intros e ->].
  - rewrite Hc'. exact IH.
Qed.

(** A guard on a field that is not among the facts keeps the ordering
    comparison on a string-valued temperature from raising. *)
Lemma rule_matches_short_circuit_witness :
  rule_matches {[ "temperature" := VStr "hot" ]}
    (Rule "guarded" 1
       [("sensor_ok", "==", VBool true); ("temperature", ">=", VInt 30)]
       default_action)
  = Ok false.
Proof.
  apply (rule_matches_short_circuit {[ "temperature" := VStr "hot" ]}
           (Rule "guarded" 1
              [("sensor_ok", "==", VBool true); ("temperature", ">=", VInt 30)]
              default_action)
           [] ("sensor_ok", "==", VBool true) [("temperature", ">=", VInt 30)]);
    [reflexivity|constructor|reflexivity].
Defined.

(** ["=="] and ["!="] never raise, whatever the types compared. On a
    field the facts hold they are complementary; on a missing field both
    are [False]. *)
Theorem equality_conditions_never_raise (facts : gmap string value) field v :
  ∃ b, evaluate_condition facts (field, "==", v) = Ok b
    ∧ evaluate_condition facts (field, "!=", v)
      = Ok (match facts !! field with Some _ => negb b | None => false end)
    ∧ (facts !! field = None → b = false).
Proof.
  unfold evaluate_condition. destruct (facts !! field) as [x|].
  - exists (py_eq x v). by repeat split.
  - exists false. by repeat split.
Qed.

(** ** The shipped rule table on the dashboard's facts *)

(** The action of a call, without the list of fired rules. *)
Definition action_of (r : result (action * list rule)) : result action :=
  match r with
  | Ok (a, _) => Ok a
  | Raise e => Raise e
  end.

(** [DEFAULT_RULES] read in priority order (110, 95, 90, 85, 80, 75, 65):
    the first rule whose conditions hold decides. *)
Definition thermostat (temperature humidity : Z) (occupancy time_of_day : string)
    (windows_open : bool) : action :=
  let occupied := String.eqb occupancy "OCCUPIED" in
  if windows_open then
    Action "OFF" "AUTO" None "Cooling disabled because windows are open"
  else if String.eqb occupancy "EMPTY" && (temperature >=? 24) then
    Action "ECO" "LOW" (Some 27) "No occupants, energy saving activated"
  else if temperature <=? 22 then
    Action "OFF" "AUTO" None "Temperature already low"
  else if occupied && (temperature >=? 30) && (humidity >=? 70) then
    Action "COOL" "HIGH" (Some 23) "High temperature and humidity detected"
  else if occupied && String.eqb time_of_day "NIGHT" && (temperature >=? 26) then
    Action "SLEEP" "LOW" (Some 26) "Night-time comfort optimization"
  else if occupied && (temperature >=? 28) then
    Action "COOL" "MEDIUM" (Some 24) "High temperature detected"
  else if occupied && (temperature >=? 26) && (temperature <? 28) then
    Action "COOL" "LOW" (Some 25) "Moderately warm environment"
  else default_action.

Lemma evaluate_condition_number (facts : gmap string value) field op x n num str :
  facts !! field = Some (VInt x) →
  OPS !! op = Some (py_order num str) →
  evaluate_condition facts (field, op, VInt n) = Ok (num x n).
Proof. intros Hf Ho. unfold evaluate_condition. by rewrite Hf, Ho. Qed.

Lemma evaluate_condition_string (facts : gmap string value) field x s :
  facts !! field = Some (VStr x) →
  evaluate_condition facts (field, "==", VStr s) = Ok (String.eqb x s).
Proof. intros Hf. unfold evaluate_condition. by rewrite Hf. Qed.

Lemma evaluate_condition_flag (facts : gmap string value) field (x : bool) :
  facts !! field = Some (VBool x) →
  evaluate_condition facts (field, "==", VBool true) = Ok x.
Proof. intros Hf. unfold evaluate_condition. rewrite Hf. by destruct x. Qed.

(** On the facts of the five widgets the engine and the table compute the
    decision list [thermostat]. *)
Lemma run_rules_default_table (t h : Z) (o tod : string) (w : bool) :
  action_of (run_rules (ui_facts t h o tod w) DEFAULT_RULES)
  = Ok (thermostat t h o tod w).
Proof.
  unfold run_rules, DEFAULT_RULES, thermostat.
  cbn [matching rule_matches conditions all_conditions].
  rewrite (evaluate_condition_flag _ "windows_open" w) by reflexivity.
  rewrite !(evaluate_condition_string _ "occupancy" o) by reflexivity.
  rewrite !(evaluate_condition_string _ "time_of_day" tod) by reflexivity.
  rewrite !(evaluate_condition_number _ "temperature" ">=" t _ Z.geb
              (λ s t, String.leb t s)) by reflexivity.
  rewrite !(evaluate_condition_number _ "temperature" "<" t _ Z.ltb
              String.ltb) by reflexivity.
  rewrite !(evaluate_condition_number _ "temperature" "<=" t _ Z.leb
              String.leb) by reflexivity.
  rewrite !(evaluate_condition_number _ "humidity" ">=" h _ Z.geb
              (λ s t, String.leb t s)) by reflexivity.
  generalize (String.eqb o "EMPTY") as empty, (String.eqb o "OCCUPIED") as occ,
             (String.eqb tod "NIGHT") as night.
  generalize (t >=? 24) as t24, (t >=? 26) as t26, (t >=? 28) as t28,
             (t >=? 30) as t30, (t <? 28) as lt28, (t <=? 22) as le22,
             (h >=? 70) as h70.
  intros. destruct w, empty, t24, le22, occ, night, t26, t28, t30, lt28, h70;
    reflexivity.
Qed.

(** With the windows open the system is switched off, whatever the other
    four widgets say: no rule outranks priority 110. *)
Theorem windows_open_switches_off (t h : Z) (o tod : string) :
  action_of (run_rules (ui_facts t h o tod true) DEFAULT_RULES)
  = Ok (Action "OFF" "AUTO" None "Cooling disabled because windows are open").
Proof. by rewrite run_rules_default_table. Qed.

(** For every state of the five widgets the call returns, with the
    action the decision list [thermostat] gives: the rules are tried in
    the order of their priorities 110, 95, 90, 85, 80, 75, 65 and the
    default action is what is left. *)
Theorem default_rules_decision_list (t h : Z) (o tod : string) (w : bool) :
  ∃ fired,
    run_rules (ui_facts t h o tod w) DEFAULT_RULES
    = Ok (thermostat t h o tod w, fired).
Proof.
  pose proof (run_rules_default_table t h o tod w) as H.
  destruct (run_rules (ui_facts t h o tod w) DEFAULT_RULES) as [[a fired]|e];
    [|done].
  injection H as ->. by exists fired.
Qed.

(** In an occupied house at night, windows closed, from 26 degrees on:
    the sleep mode is chosen unless it is both hot (30 or more) and humid
    (70 or more); the rules "Hot while occupied" and "Warm while
    occupied" never decide at night. *)
Theorem night_comfort_outranks_cooling (t h : Z) :
  26 ≤ t →
  action_of (run_rules (ui_facts t h "OCCUPIED" "NIGHT" false) DEFAULT_RULES)
  = Ok (if (30 <=? t) && (70 <=? h)
        then Action "COOL" "HIGH" (Some 23) "High temperature and humidity detected"
        else Action "SLEEP" "LOW" (Some 26) "Night-time comfort optimization").
Proof.
  intros Ht. rewrite run_rules_default_table. unfold thermostat.
  cbn [String.eqb Ascii.eqb Bool.eqb andb].
  rewrite (proj2 (Z.leb_gt t 22)) by lia.
  rewrite (proj2 (Z.geb_le t 26)) by lia.
  rewrite !Z.geb_leb. by destruct (30 <=? t), (70 <=? h).
Qed.

Lemma night_comfort_outranks_cooling_witness :
  action_of (run_rules (ui_facts 29 80 "OCCUPIED" "NIGHT" false) DEFAULT_RULES)
  = Ok (Action "SLEEP" "LOW" (Some 26) "Night-time comfort optimization").
Proof. apply (night_comfort_outranks_cooling 29 80). lia. Defined.

(** Whatever the widgets say, the setpoint returned is either absent,
    with the system off, or between 23 and 27 degrees. *)
Theorem default_rules_setpoint_range (t h : Z) (o tod : string) (w : bool) :
  ∃ a, action_of (run_rules (ui_facts t h o tod w) DEFAULT_RULES) = Ok a
    ∧ ((setpoint a = None ∧ mode a = "OFF")
       ∨ ∃ sp, setpoint a = Some sp ∧ 23 ≤ sp ≤ 27 ∧ mode a ≠ "OFF").
Proof.
  exists (thermostat t h o tod w). split; [apply run_rules_default_table|].
  unfold thermostat.
  repeat match goal with
         | |- context [if ?b then _ else _] => destruct b
         end;
    first [ left; split; reflexivity
          | right; eexists; split; [reflexivity|split; [lia|discriminate]] ].
Qed.

Local Close Scope Z_scope.

(** * Further properties of the genetic algorithm *)

(** ** Fitness of bit rows *)

Lemma row_sum_bits (row : list Z) :
  Forall is_bit row →
  (0 ≤ row_sum row ≤ Z.of_nat (length row))%Z
  ∧ (row_sum row = Z.of_nat (length row) ↔ Forall (λ b, b = 1%Z) row)
  ∧ (row_sum row = 0%Z ↔ Forall (λ b, b = 0%Z) row).
Proof.
  unfold row_sum.
  induction 1 as [|b row Hb _ (Hrange & Hones & Hzeros)]; simpl.
  - split; [lia|]. split; (split; [constructor|done]).
  - rewrite !Forall_cons.
    destruct Hb as [-> | ->]; (split; [lia|]); split; split.
    all: try (intros [? ?]; lia || done).
    + intros Hs. lia.
    + intros Hs. split; [done|]. apply Hzeros. lia.
    + intros [_ Hall]. apply Hzeros in Hall. lia.
    + intros Hs. split; [done|]. apply Hones. lia.
    + intros [_ Hall]. apply Hones in Hall. lia.
    + intros Hs. lia.
Qed.

(** On a population of bits [fitness] returns one count per row, between
    0 and the row length; the count is the row length exactly for the row
    of ones and 0 exactly for the row of zeros. *)
Theorem fitness_of_bits (pop : list (list Z)) :
  Forall (Forall is_bit) pop →
  length (fitness pop) = length pop
  ∧ ∀ i row, pop !! i = Some row →
      ∃ f, fitness pop !! i = Some f
        ∧ (0 ≤ f ≤ Z.of_nat (length row))%Z
        ∧ (f = Z.of_nat (length row) ↔ Forall (λ b, b = 1%Z) row)
        ∧ (f = 0%Z ↔ Forall (λ b, b = 0%Z) row).
Proof.
  intros Hbits. unfold fitness. split; [by rewrite length_fmap|].
  intros i row Hi. exists (row_sum row).
  split; [by rewrite list_lookup_fmap, Hi|].
  apply row_sum_bits. rewrite Forall_forall in Hbits. apply Hbits.
  by eapply list_elem_of_lookup_2.
Qed.

Lemma four_rows_bits : Forall (Forall is_bit) four_rows.
Proof. unfold four_rows, is_bit. repeat constructor; tauto. Qed.

Lemma fitness_of_bits_witness :
  length (fitness four_rows) = 4
  ∧ fitness four_rows !! 1 = Some 4%Z.
Proof.
  split; [exact (proj1 (fitness_of_bits four_rows four_rows_bits))|].
  reflexivity.
Defined.

(** ** The operators keep rows of bits *)

Lemma reshape_Forall (P : Z → Prop) n l flat :
  Forall P flat → Forall (Forall P) (reshape n l flat).
Proof.
  intros H. unfold reshape. apply Forall_fmap, Forall_forall. intros i _.
  simpl. by apply Forall_take, Forall_drop.
Qed.

Lemma two_point_Forall (P : Z → Prop) a b i j :
  Forall P a → Forall P b → Forall P (two_point a b i j).
Proof.
  intros Ha Hb. unfold two_point. rewrite !Forall_app.
  split; [by apply Forall_take|].
  split; [by apply Forall_take, Forall_drop|by apply Forall_drop].
Qed.

Lemma flip_is_bit b : is_bit b → is_bit (Z.lxor b 1).
Proof. intros [-> | ->]; [by right|by left]. Qed.

Lemma zip_with_mask_bits (child : list Z) (mask : list bool) :
  Forall is_bit child →
  Forall is_bit
    (zip_with (λ (x : Z) (f : bool), if f then Z.lxor x 1 else x) child mask).
Proof.
  intros H. revert mask. induction H as [|x child Hx _ IH]; intros [|f mask];
    simpl; try constructor; [|apply IH].
  destruct f; [by apply flip_is_bit|done].
Qed.

Lemma row_sum_app (a b : list Z) : row_sum (a ++ b) = (row_sum a + row_sum b)%Z.
Proof.
  unfold row_sum. induction a as [|x a IH]; simpl; [done|]. rewrite IH. lia.
Qed.

Lemma row_sum_take_drop (n : nat) (a : list Z) :
  (row_sum (take n a) + row_sum (drop n a))%Z = row_sum a.
Proof. by rewrite <- row_sum_app, take_drop. Qed.

Lemma two_point_sum (a b : list Z) (i j : nat) :
  i ≤ j →
  (row_sum (two_point a b i j) + row_sum (two_point b a i j))%Z
  = (row_sum a + row_sum b)%Z.
Proof.
  intros Hij. unfold two_point. rewrite !row_sum_app.
  rewrite <- (row_sum_take_drop i a), <- (row_sum_take_drop i b).
  rewrite <- (row_sum_take_drop (j - i) (drop i a)).
  rewrite <- (row_sum_take_drop (j - i) (drop i b)).
  rewrite !drop_drop. replace (i + (j - i)) with j by lia. lia.
Qed.

Lemma two_point_lookup (a b : list Z) (i j k : nat) :
  i ≤ j → j ≤ length a → length b = length a →
  two_point a b i j !! k
  = if decide (i ≤ k ∧ k < j) then b !! k else a !! k.
Proof.
  intros Hij Hj Hab. unfold two_point.
  destruct (decide (k < i)) as [Hki|Hki].
  - rewrite lookup_app_l by (rewrite length_take; lia).
    rewrite lookup_take_lt by lia. rewrite decide_False by lia. done.
  - rewrite lookup_app_r by (rewrite length_take; lia).
    rewrite length_take. replace (i `min` length a) with i by lia.
    destruct (decide (k < j)) as [Hkj|Hkj].
    + rewrite lookup_app_l by (rewrite length_take, length_drop; lia).
      rewrite lookup_take_lt by lia. rewrite lookup_drop.
      rewrite decide_True by lia. f_equal. lia.
    + rewrite lookup_app_r by (rewrite length_take, length_drop; lia).
      rewrite length_take, length_drop, lookup_drop.
      rewrite decide_False by lia. f_equal. lia.
Qed.

Section Operators.
Context {G : Generator} (c : Config).

Lemma init_population_spec (s : rng_state) :
  ∃ pop s', init_population c s = Ok (pop, s')
    ∧ length pop = POP_SIZE c
    ∧ Forall (λ row, length row = GENE_LENGTH c) pop
    ∧ Forall (Forall is_bit) pop.
Proof.
  unfold init_population, bind, integers, ret.
  rewrite decide_True by lia.
  pose proof (integers_length 0 2 (POP_SIZE c * GENE_LENGTH c) s) as Hlen.
  pose proof (integers_range 0 2 (POP_SIZE c * GENE_LENGTH c) s ltac:(lia))
    as Hrange.
  destruct (rng_integers 0 2 (POP_SIZE c * GENE_LENGTH c) s) as [flat s0].
  simpl in *. eexists _, _. split; [done|].
  split; [apply reshape_length|]. split; [by apply reshape_rows|].
  apply reshape_Forall. eapply Forall_impl; [exact Hrange|].
  unfold is_bit. simpl. lia.
Qed.

(** [init_population] never raises: it returns [POP_SIZE] rows of
    [GENE_LENGTH] genes, each gene 0 or 1. *)
Theorem init_population_bits (s : rng_state) :
  ∃ pop s', init_population c s = Ok (pop, s')
    ∧ length pop = POP_SIZE c
    ∧ Forall (λ row, length row = GENE_LENGTH c ∧ Forall is_bit row) pop.
Proof.
  destruct (init_population_spec s) as (pop & s' & Hrun & Hlen & Hrect & Hbits).
  exists pop, s'. split; [done|]. split; [done|].
  rewrite Forall_forall in Hrect, Hbits. apply Forall_forall.
  intros row Hrow. split; [by apply Hrect|by apply Hbits].
Qed.

(** [crossover] only redistributes genes: on parents of [GENE_LENGTH]
    genes both children have [GENE_LENGTH] genes, at every position the
    two children hold the two parents' genes of that position (kept or
    swapped), and so the children's fitness values add up to the
    parents'. *)
Theorem crossover_redistributes_genes (p1 p2 c1 c2 : list Z)
    (s s' : rng_state) :
  length p1 = GENE_LENGTH c → length p2 = GENE_LENGTH c →
  crossover c p1 p2 s = Ok ((c1, c2), s') →
  length c1 = GENE_LENGTH c ∧ length c2 = GENE_LENGTH c
  ∧ (∀ k, (c1 !! k = p1 !! k ∧ c2 !! k = p2 !! k)
          ∨ (c1 !! k = p2 !! k ∧ c2 !! k = p1 !! k))
  ∧ (row_sum c1 + row_sum c2 = row_sum p1 + row_sum p2)%Z.
Proof.
  intros H1 H2 H.
  apply crossover_inv in H
    as [[-> ->] | (i & j & Hi & Hij & Hj & -> & ->)].
  - split; [done|]. split; [done|]. split; [|done]. intros k. by left.
  - rewrite !two_point_length by lia. split; [done|]. split; [done|].
    split; [|by apply two_point_sum].
    intros k. rewrite !two_point_lookup by lia.
    case_decide; [by right|by left].
Qed.

(** With a single gene (or none) there is no interior cut point: when
    the crossover branch is taken, as it always is for [PC = 1],
    [rng.integers(1, GENE_LENGTH, 2)] is refused and [crossover] raises
    [ValueError]. *)
Theorem crossover_needs_two_genes (p1 p2 : list Z) (s : rng_state) :
  GENE_LENGTH c ≤ 1 → (PC c == 1)%Q →
  crossover c p1 p2 s = Raise ValueError.
Proof.
  intros HL Hpc. apply crossover_no_cut; [|done].
  apply Qltb_lt. rewrite Hpc. apply random_unit.
Qed.

(** With at least one gene configured, a child whose length is not
    [GENE_LENGTH] makes the boolean mask of [mutation] the wrong size:
    [IndexError]. With [GENE_LENGTH = 0] the mask is empty, which is
    accepted on a child of any length and flips nothing: the child comes
    back as it was, after the one call of [rng.random(0)]. *)
Theorem mutation_wrong_length (child : list Z) (s : rng_state) :
  length child ≠ GENE_LENGTH c →
  (1 ≤ GENE_LENGTH c → mutation c child s = Raise IndexError)
  ∧ (GENE_LENGTH c = 0 →
       mutation c child s = Ok (child, (rng_random_n 0 s).2)).
Proof.
  intros Hlen. unfold mutation, bind, random_n, ret, raise.
  pose proof (random_n_length (GENE_LENGTH c) s) as Hu. split; intros HL.
  - destruct (rng_random_n (GENE_LENGTH c) s) as [u s1]. simpl in Hu.
    rewrite length_fmap.
    rewrite decide_False by lia. by rewrite decide_False by lia.
  - rewrite HL in *.
    destruct (rng_random_n 0 s) as [u s1]. simpl in Hu.
    rewrite length_fmap. by rewrite decide_True by lia.
Qed.

Lemma mutation_bits (child m : list Z) (s s' : rng_state) :
  mutation c child s = Ok (m, s') → Forall is_bit child → Forall is_bit m.
Proof.
  unfold mutation, bind, random_n, ret, raise.
  destruct (rng_random_n (GENE_LENGTH c) s) as [u s1].
  repeat case_decide; try done; intros [= <- <-] Hbits; [done|].
  by apply zip_with_mask_bits.
Qed.

(** A tournament larger than the population, or of size 0, raises
    [ValueError]: [rng.choice] refuses the first, [np.argmax] the
    second. *)
Theorem tournament_selection_refused (pop : list (list Z)) (fit : list Z)
    (s : rng_state) :
  length pop < TOUR_K c ∨ TOUR_K c = 0 →
  tournament_selection c pop fit s = Raise ValueError.
Proof.
  intros [H | H];
    [by apply tournament_selection_too_large
    |by apply tournament_selection_empty].
Qed.

(** The winner of a tournament is the first candidate drawn that has
    the greatest fitness among those drawn: no candidate is fitter than
    the winner, and every candidate drawn before it is strictly less
    fit. The generator is advanced by the one call of [rng.choice]. *)
Theorem tournament_first_drawn_wins (pop : list (list Z)) (s : rng_state) :
  1 ≤ TOUR_K c → TOUR_K c ≤ length pop →
  ∃ (pos winner : nat) (g : list Z),
    tournament_selection c pop (fitness pop) s
      = Ok (g, (rng_choice (length pop) (TOUR_K c) s).2)
    ∧ (rng_choice (length pop) (TOUR_K c) s).1 !! pos = Some winner
    ∧ pop !! winner = Some g
    ∧ (∀ k i h,
        (rng_choice (length pop) (TOUR_K c) s).1 !! k = Some i →
        pop !! i = Some h → (row_sum h ≤ row_sum g)%Z)
    ∧ ∀ k i h, k < pos →
        (rng_choice (length pop) (TOUR_K c) s).1 !! k = Some i →
        pop !! i = Some h → (row_sum h < row_sum g)%Z.
Proof.
  intros HK1 HKn.
  destruct (tournament_selection_Ok c pop (fitness pop) s)
    as (pos & w & g & best & Hrun & Hpos & Hg & Hbest & Hmax & Hfirst);
    [by unfold fitness; rewrite length_fmap|done..|].
  simpl in *. exists pos, w, g. split; [done|]. split; [done|].
  split; [done|].
  assert (best = row_sum g) as ->.
  { unfold fitness in Hbest. rewrite list_lookup_fmap, Hg in Hbest.
    by injection Hbest. }
  split.
  - intros k i h Hi Hh. apply (Hmax i); [by eapply list_elem_of_lookup_2|].
    unfold fitness. by rewrite list_lookup_fmap, Hh.
  - intros k i h Hk Hi Hh. apply (Hfirst k i); [done..|].
    unfold fitness. by rewrite list_lookup_fmap, Hh.
Qed.

End Operators.

(** A configuration of one gene that always crosses over. *)
Definition single_gene : Config :=
  {| POP_SIZE := 4; GENE_LENGTH := 1; MAX_GEN := 1; PC := 1; PM := 0;
     ELITE := 1; TOUR_K := 2; SEED := 7 |}.

Lemma crossover_redistributes_genes_witness :
  (row_sum [0; 1; 1; 0] + row_sum [1; 0; 0; 1]
   = row_sum [0; 0; 0; 0] + row_sum [1; 1; 1; 1])%Z.
Proof.
  apply (crossover_redistributes_genes (G := TapeGenerator) always_cross
           [0; 0; 0; 0]%Z [1; 1; 1; 1]%Z [0; 1; 1; 0]%Z [1; 0; 0; 1]%Z
           [0; 0; 2]%Z [] eq_refl eq_refl).
  vm_compute. reflexivity.
Defined.

Lemma crossover_needs_two_genes_witness :
  crossover (G := TapeGenerator) single_gene [1%Z] [0%Z] [0%Z]
  = Raise ValueError.
Proof.
  apply (crossover_needs_two_genes (G := TapeGenerator) single_gene).
  - simpl. lia.
  - reflexivity.
Defined.

(** A configuration without genes. *)
Definition no_genes : Config :=
  {| POP_SIZE := 4; GENE_LENGTH := 0; MAX_GEN := 1; PC := 0; PM := 0;
     ELITE := 1; TOUR_K := 2; SEED := 7 |}.

Lemma mutation_wrong_length_witness :
  mutation (G := TapeGenerator) always_cross [0; 1; 1]%Z [5; 50; 95; 20]%Z
  = Raise IndexError
  ∧ mutation (G := TapeGenerator) no_genes [0; 1; 1]%Z [5; 50; 95; 20]%Z
    = Ok ([0; 1; 1]%Z, [5; 50; 95; 20]%Z).
Proof.
  split.
  - apply (mutation_wrong_length (G := TapeGenerator) always_cross);
      simpl; lia.
  - apply (mutation_wrong_length (G := TapeGenerator) no_genes
             [0; 1; 1]%Z [5; 50; 95; 20]%Z); simpl; lia.
Defined.

(** A tournament of five among four rows. *)
Definition oversized_tournament : Config :=
  {| POP_SIZE := 4; GENE_LENGTH := 4; MAX_GEN := 1; PC := 0; PM := 0;
     ELITE := 1; TOUR_K := 5; SEED := 7 |}.

Lemma tournament_selection_refused_witness :
  tournament_selection (G := TapeGenerator) oversized_tournament four_rows
    (fitness four_rows) [2%Z]
  = Raise ValueError.
Proof.
  apply (tournament_selection_refused (G := TapeGenerator)
           oversized_tournament).
  left. simpl. lia.
Defined.

(** Two rows of fitness 2 and a tournament over both: with the draw
    1, 0 the winner is row 1, the first one drawn. *)
Definition pair_tournament : Config :=
  {| POP_SIZE := 2; GENE_LENGTH := 4; MAX_GEN := 1; PC := 0; PM := 0;
     ELITE := 1; TOUR_K := 2; SEED := 7 |}.

Lemma tournament_first_drawn_wins_witness :
  (tape_choice 2 2 [1%Z]).1 = [1; 0]
  ∧ tournament_selection (G := TapeGenerator) pair_tournament
      [[1; 1; 0; 0]; [0; 0; 1; 1]]%Z
      (fitness [[1; 1; 0; 0]; [0; 0; 1; 1]]%Z) [1%Z]
    = Ok ([0; 0; 1; 1]%Z, []).
Proof.
  split; [reflexivity|].
  destruct (tournament_first_drawn_wins (G := TapeGenerator) pair_tournament
              [[1; 1; 0; 0]; [0; 0; 1; 1]]%Z [1%Z]
              ltac:(simpl; lia) ltac:(simpl; lia))
    as (pos & winner & g & Hrun & Hpos & Hg & _ & Hfirst).
  destruct pos as [|[|pos]]; [| |done].
  - injection Hpos as <-. injection Hg as <-. exact Hrun.
  - specialize (Hfirst 0 1 [0; 0; 1; 1]%Z ltac:(lia) eq_refl eq_refl).
    injection Hpos as <-. injection Hg as <-.
    vm_compute in Hfirst. discriminate Hfirst.
Defined.

(** ** The run *)

Lemma sum_le_max (a : list Z) (m : Z) :
  Forall (λ y, (y ≤ m)%Z) a → (foldr Z.add 0 a ≤ m * Z.of_nat (length a))%Z.
Proof. induction 1 as [|y a Hy _ IH]; simpl; lia. Qed.

(** The mean of an array as a rational number: the exact quotient that
    [a.mean()] rounds to a float64. *)
Definition exact_mean (a : list Z) : Q :=
  Qmake (total a) (Pos.of_nat (length a)).

Lemma exact_mean_le_max (a : list Z) (m : Z) :
  is_max m a → (exact_mean a <= inject_Z m)%Q.
Proof.
  intros [Hin Hall]. unfold exact_mean, total, Qle. simpl.
  assert (0 < length a) as Hlen
    by (destruct a; [by apply elem_of_nil in Hin|simpl; lia]).
  pose proof (sum_le_max a m Hall) as Hsum.
  replace (Z.pos (Pos.of_nat (length a))) with (Z.of_nat (length a)); [lia|].
  destruct (length a) as [|n]; [lia|]. rewrite <- Pos.of_nat_succ. lia.
Qed.

Section RunProperties.
Context {G : Generator} {AS : ArgSort} (c : Config).

Definition bits (pop : list (list Z)) : Prop := Forall (Forall is_bit) pop.

Lemma breed_bits (pop : list (list Z)) (fit : list Z) (n : nat) :
  bits pop →
  ∀ acc s np s',
    breed c n pop fit acc s = Ok (np, s') → bits acc → bits np.
Proof.
  intros Hpop. unfold bits in *.
  assert (∀ s p1 p2 c1 c2 s1 s2 s3,
            tournament_selection c pop fit s = Ok (p1, s1) →
            tournament_selection c pop fit s1 = Ok (p2, s2) →
            crossover c p1 p2 s2 = Ok ((c1, c2), s3) →
            Forall is_bit c1 ∧ Forall is_bit c2) as Hpair.
  { intros s p1 p2 c1 c2 s1 s2 s3 Ht1 Ht2 Hc.
    apply tournament_selection_row in Ht1, Ht2.
    rewrite Forall_forall in Hpop.
    pose proof (Hpop _ Ht1) as Hb1. pose proof (Hpop _ Ht2) as Hb2.
    apply crossover_inv in Hc
      as [[-> ->] | (i & j & _ & _ & _ & -> & ->)]; [done|].
    split; by apply two_point_Forall. }
  induction n as [n IH] using lt_wf_ind. intros acc s np s' H Hacc.
  destruct n as [|[|n]]; simpl in H.
  - by apply ret_Ok in H as [-> _].
  - apply bind_Ok in H as (parent1 & s1 & Ht1 & H).
    apply bind_Ok in H as (parent2 & s2 & Ht2 & H).
    apply bind_Ok in H as ([child1 child2] & s3 & Hc & H).
    apply bind_Ok in H as (m1 & s4 & Hm1 & H).
    apply ret_Ok in H as [-> _].
    destruct (Hpair _ _ _ _ _ _ _ _ Ht1 Ht2 Hc) as [Hc1 _].
    apply Forall_app. split; [done|]. constructor; [|done].
    by eapply mutation_bits.
  - apply bind_Ok in H as (parent1 & s1 & Ht1 & H).
    apply bind_Ok in H as (parent2 & s2 & Ht2 & H).
    apply bind_Ok in H as ([child1 child2] & s3 & Hc & H).
    apply bind_Ok in H as (m1 & s4 & Hm1 & H).
    apply bind_Ok in H as (m2 & s5 & Hm2 & H).
    destruct (Hpair _ _ _ _ _ _ _ _ Ht1 Ht2 Hc) as [Hc1 Hc2].
    apply (IH n ltac:(lia) _ _ _ _ H).
    apply Forall_app. split; [done|].
    constructor; [by eapply mutation_bits|].
    constructor; [by eapply mutation_bits|done].
Qed.

Lemma generation_bits (gen : nat) (pop next : list (list Z))
    (row : GenerationRecord) (s s' : rng_state) :
  ELITE c < POP_SIZE c → bits pop →
  generation c gen pop s = Ok ((row, next), s') → bits next.
Proof.
  intros HE Hpop H.
  apply generation_inv in H
    as (best & elites & kids & _ & _ & Hel & Hbreed & Hlen & _ & Hst).
  apply vstack_inv in Hst as ->; [|intros ->; simpl in Hlen; lia].
  unfold bits. apply Forall_app. split.
  - apply (breed_bits _ _ _ Hpop _ _ _ _ Hbreed). constructor.
  - destruct (elites_members _ _ _ Hel) as [_ Hmem].
    eapply Forall_impl; [exact Hmem|]. simpl. intros g Hg.
    unfold bits in Hpop. rewrite Forall_forall in Hpop. by apply Hpop.
Qed.

Lemma steps_bits (gen : nat) pop s trace pop' s' :
  ELITE c < POP_SIZE c →
  steps c gen pop s trace pop' s' →
  bits pop → rect c pop →
  Forall (λ p, bits p ∧ rect c p) (trace.*1 ++ [pop']).
Proof.
  intros HE.
  induction 1 as [|gen pop s row next s1 trace pop' s' Hgen _ IH];
    intros Hbits Hrect.
  - by repeat constructor.
  - simpl. constructor; [done|]. apply IH.
    + by eapply generation_bits.
    + by eapply generation_rect.
Qed.

Lemma is_max_bits (p : list (list Z)) (m : Z) :
  bits p → rect c p → is_max m (fitness p) →
  (0 ≤ m ≤ Z.of_nat (GENE_LENGTH c))%Z.
Proof.
  intros Hbits Hrect [Hin _]. unfold fitness in Hin.
  apply list_elem_of_fmap in Hin as (row & -> & Hrow).
  unfold bits, rect in *. rewrite Forall_forall in Hbits, Hrect.
  destruct (row_sum_bits row (Hbits _ Hrow)) as [Hr _].
  by rewrite (Hrect _ Hrow) in Hr.
Qed.

(** What [run_ga] returns besides the history: a row of the final
    population, the one left by the last of the [MAX_GEN] generations
    that the history records, of greatest fitness there, the first such
    row, with its fitness. *)
Theorem run_ga_returns_first_best (s s' : rng_state)
    (history : list GenerationRecord) (best_solution : list Z)
    (best_fitness : Z) :
  run_ga c s = Ok ((history, best_solution, best_fitness), s') →
  ∃ pop0 s0 trace pop' best_index,
    init_population c s = Ok (pop0, s0)
    ∧ steps c 0 pop0 s0 trace pop' s'
    ∧ length trace = MAX_GEN c
    ∧ history = trace.*2
    ∧ pop' !! best_index = Some best_solution
    ∧ best_fitness = row_sum best_solution
    ∧ (∀ g, g ∈ pop' → (row_sum g ≤ best_fitness)%Z)
    ∧ (∀ k g, k < best_index → pop' !! k = Some g →
         (row_sum g < best_fitness)%Z).
Proof.
  intros Hrun.
  apply run_ga_inv in Hrun
    as (pop0 & s0 & trace & pop' & Hinit & Hst & Hlen & Hhist & j & Hj & Hg
        & Hf).
  exists pop0, s0, trace, pop', j. split; [done|]. split; [done|].
  split; [done|]. split; [done|]. split; [done|].
  assert (best_fitness = row_sum best_solution) as ->.
  { unfold fitness in Hf. rewrite list_lookup_fmap, Hg in Hf.
    by injection Hf. }
  split; [done|].
  destruct (argmax_spec (fitness pop')) as (j' & m & Hj' & Hm & Hall & Hfirst).
  { intros Hnil. unfold fitness in Hnil. apply fmap_nil_inv in Hnil.
    by rewrite Hnil in Hg. }
  rewrite Hj in Hj'. injection Hj' as <-.
  rewrite Hf in Hm. injection Hm as <-. split.
  - intros g Hin. rewrite Forall_forall in Hall. apply Hall.
    unfold fitness. apply list_elem_of_fmap. by exists g.
  - intros k g Hk Hkg. apply (Hfirst k); [done|].
    unfold fitness. by rewrite list_lookup_fmap, Hkg.
Qed.

Lemma run_ga_bounds (s s' : rng_state)
    (history : list GenerationRecord) (best_solution : list Z)
    (best_fitness : Z) :
  ELITE c < POP_SIZE c →
  run_ga c s = Ok ((history, best_solution, best_fitness), s') →
  Forall (λ row, (0 ≤ Best_Fitness row ≤ Z.of_nat (GENE_LENGTH c))%Z) history
  ∧ length best_solution = GENE_LENGTH c
  ∧ Forall is_bit best_solution
  ∧ (0 ≤ best_fitness ≤ Z.of_nat (GENE_LENGTH c))%Z.
Proof.
  intros HE Hrun.
  apply run_ga_inv in Hrun
    as (pop0 & s0 & trace & pop' & Hinit & Hst & _ & -> & j & Hj & Hg & Hf).
  destruct (init_population_spec c s) as (p & s1 & Hinit' & _ & Hrect & Hbits).
  rewrite Hinit in Hinit'. injection Hinit' as <- <-.
  pose proof (steps_bits _ _ _ _ _ _ HE Hst Hbits Hrect) as Hall.
  apply Forall_app in Hall as [Htrace Hfinal].
  apply Forall_singleton in Hfinal as [Hfb Hfr].
  assert (Forall is_bit best_solution ∧ length best_solution = GENE_LENGTH c)
    as [Hsb Hsl].
  { apply list_elem_of_lookup_2 in Hg. unfold bits, rect in *.
    rewrite Forall_forall in Hfb, Hfr. split; [by apply Hfb|by apply Hfr]. }
  split; [|split; [done|split; [done|]]].
  - apply Forall_fmap, Forall_forall. intros [p row] Hin. simpl.
    apply list_elem_of_lookup in Hin as [i Hi].
    destruct (steps_rows c _ _ _ _ _ _ Hst i p row Hi) as (_ & Hmax & _).
    rewrite Forall_forall in Htrace.
    destruct (Htrace p) as [Hpb Hpr].
    { apply list_elem_of_fmap. exists (p, row). split; [done|].
      by eapply list_elem_of_lookup_2. }
    by eapply is_max_bits.
  - unfold fitness in Hf. rewrite list_lookup_fmap, Hg in Hf.
    injection Hf as <-. destruct (row_sum_bits _ Hsb) as [Hr _].
    by rewrite Hsl in Hr.
Qed.

(** Every population of a run with fewer elites than rows is made of
    [GENE_LENGTH] bits per row. So every best fitness in the history and
    the fitness returned lie between 0 and [GENE_LENGTH], and the
    chromosome returned is a row of [GENE_LENGTH] bits. *)
Theorem run_ga_fitness_bounds (s s' : rng_state)
    (history : list GenerationRecord) (best_solution : list Z)
    (best_fitness : Z) :
  ELITE c < POP_SIZE c →
  run_ga c s = Ok ((history, best_solution, best_fitness), s') →
  Forall (λ row, (0 ≤ Best_Fitness row ≤ Z.of_nat (GENE_LENGTH c))%Z) history
  ∧ length best_solution = GENE_LENGTH c
  ∧ Forall is_bit best_solution
  ∧ (0 ≤ best_fitness ≤ Z.of_nat (GENE_LENGTH c))%Z.
Proof. apply run_ga_bounds. Qed.


(** With an elite, a population that has a maximum hands one at least as
    large to every later population of the trace. *)
Lemma steps_best_le (gen : nat) pop s trace pop' s' :
  1 ≤ ELITE c →
  steps c gen pop s trace pop' s' →
  ∀ m, is_max m (fitness pop) →
    ∃ m', is_max m' (fitness pop') ∧ (m ≤ m')%Z.
Proof.
  intros HE.
  induction 1 as [|gen pop s row next s1 trace pop' s' Hgen _ IH];
    intros m Hm.
  - exists m. split; [done|lia].
  - assert (∃ m1, is_max m1 (fitness next)) as [m1 Hm1].
    { pose proof Hgen as Hinv.
      apply generation_inv in Hinv
        as (best & elites & kids & _ & _ & Hel & _ & _ & _ & Hst).
      destruct (elite_idx_best c (fitness pop) m HE Hm) as (y & Hy & _).
      apply fancy_index_Forall2 in Hel.
      apply list_elem_of_lookup in Hy as [k Hk].
      destruct (Forall2_lookup_l _ _ _ _ _ Hel Hk) as (g & Hg & _).
      destruct (vstack_elites _ _ _ Hst) as [top ->].
      destruct (array_max_Ok (fitness (top ++ elites))) as [m1 Hm1].
      { unfold fitness. intros Hnil. apply fmap_nil_inv in Hnil.
        apply app_eq_nil in Hnil as [_ ->]. done. }
      exists m1. by apply array_max_spec. }
    destruct (IH m1 Hm1) as (m' & Hm' & Hle). exists m'. split; [done|].
    pose proof (generation_keeps_best c _ _ _ _ _ _ m m1 HE Hgen Hm Hm1). lia.
Qed.

Lemma steps_history_le (gen : nat) pop s trace pop' s' (m' : Z) :
  1 ≤ ELITE c →
  steps c gen pop s trace pop' s' →
  is_max m' (fitness pop') →
  Forall (λ row, (Best_Fitness row ≤ m')%Z) trace.*2.
Proof.
  intros HE Hst Hbest.
  induction Hst as [|gen pop s row next s1 trace pop' s' Hgen Hst IH];
    [constructor|].
  simpl. constructor; [|by apply IH].
  pose proof Hgen as Hinv.
  apply generation_inv in Hinv as (best & _ & _ & Hb & -> & _). simpl.
  apply array_max_spec in Hb.
  destruct (steps_best_le _ _ _ _ _ _ HE
              (steps_next c _ _ _ _ _ _ _ _ _ Hgen Hst) best Hb)
    as (m1 & Hm1 & Hle).
  by rewrite (is_max_unique _ _ _ Hbest Hm1).
Qed.

(** With an elite, the fitness [run_ga] returns is at least the best
    fitness of every row of the history: the result is never worse than
    anything the convergence chart shows. *)
Theorem returned_best_dominates_history (s s' : rng_state)
    (history : list GenerationRecord) (best_solution : list Z)
    (best_fitness : Z) :
  1 ≤ ELITE c →
  run_ga c s = Ok ((history, best_solution, best_fitness), s') →
  Forall (λ row, (Best_Fitness row ≤ best_fitness)%Z) history.
Proof.
  intros HE Hrun.
  apply run_ga_inv in Hrun
    as (pop0 & s0 & trace & pop' & _ & Hst & _ & -> & j & Hj & Hg & Hf).
  apply (steps_history_le _ _ _ _ _ _ _ HE Hst).
  destruct (argmax_spec (fitness pop')) as (j' & m & Hj' & Hm & Hall & _).
  { intros Hnil. by rewrite Hnil in Hf. }
  rewrite Hj in Hj'. injection Hj' as <-.
  rewrite Hf in Hm. injection Hm as <-.
  split; [by eapply list_elem_of_lookup_2|done].
Qed.

(** In every generation of a run the mean fitness of the population
    that enters it, taken as the exact quotient, is at most the best
    fitness recorded in the history row of that generation. *)
Theorem average_below_best (s s' : rng_state)
    (history : list GenerationRecord) (best_solution : list Z)
    (best_fitness : Z) :
  run_ga c s = Ok ((history, best_solution, best_fitness), s') →
  ∃ pop0 s0 trace pop',
    init_population c s = Ok (pop0, s0)
    ∧ steps c 0 pop0 s0 trace pop' s'
    ∧ length trace = MAX_GEN c
    ∧ history = trace.*2
    ∧ Forall (λ pr, (exact_mean (fitness pr.1)
                     <= inject_Z (Best_Fitness pr.2))%Q) trace.
Proof.
  intros Hrun.
  apply run_ga_inv in Hrun
    as (pop0 & s0 & trace & pop' & Hinit & Hst & Hlen & -> & _).
  exists pop0, s0, trace, pop'. split; [done|]. split; [done|].
  split; [done|]. split; [done|].
  apply Forall_forall. intros [p row] Hin. simpl.
  apply list_elem_of_lookup in Hin as [i Hi].
  destruct (steps_rows c _ _ _ _ _ _ Hst i p row Hi) as (_ & Hmax & _).
  by apply exact_mean_le_max.
Qed.

(** A configuration with as many elites as rows, or more, leaves no
    child to breed: [np.vstack] is given an empty list beside the elites
    and the first generation raises [ValueError] (as does [fit.max()] on
    an empty population). *)
Theorem too_many_elites (s : rng_state) :
  POP_SIZE c ≤ ELITE c → 1 ≤ GENE_LENGTH c → 1 ≤ MAX_GEN c →
  run_ga c s = Raise ValueError.
Proof.
  intros HE HL HG.
  destruct (init_population_Ok c s) as (pop0 & s0 & Hinit & Hlen & Hrect).
  unfold run_ga, bind. rewrite Hinit.
  destruct (MAX_GEN c) as [|n]; [lia|]. simpl.
  unfold bind, generation, bind, lift.
  destruct (array_max (fitness pop0)) as [best|e] eqn:Hbest.
  2:{ destruct (fitness pop0); [by injection Hbest as <-|done]. }
  destruct (fancy_index pop0 (elite_idx c (fitness pop0))) as [elites|e]
    eqn:Hel; [|by destruct (elites_Ok c pop0) as [? ?]; congruence].
  replace (POP_SIZE c - ELITE c) with 0 by lia. simpl. unfold ret, vstack.
  pose proof (elites_length c _ _ Hel) as Hn.
  destruct (elites_members _ _ _ Hel) as [_ Hmem].
  assert (pop0 ≠ []) as Hne.
  { intros ->. done. }
  destruct elites as [|g elites].
  { exfalso. simpl in Hn. destruct pop0; [done|]. simpl in *.
    case_decide; lia. }
  simpl. apply Forall_cons in Hmem as [Hg _].
  unfold rect in Hrect. rewrite Forall_forall in Hrect.
  rewrite (Hrect _ Hg). destruct (GENE_LENGTH c); [lia|]. done.
Qed.


Lemma steps_monotone_from (gen : nat) pop s trace pop' s' :
  1 ≤ ELITE c →
  steps c gen pop s trace pop' s' →
  ∀ d i r1 r2, trace.*2 !! i = Some r1 → trace.*2 !! (i + d) = Some r2 →
    (Best_Fitness r1 ≤ Best_Fitness r2)%Z.
Proof.
  intros HE Hst. induction d as [|d IH]; intros i r1 r2 H1 H2.
  - rewrite Nat.add_0_r, H1 in H2. injection H2 as <-. lia.
  - destruct (lookup_lt_is_Some_2 trace.*2 (i + d)) as [rm Hm].
    { apply lookup_lt_Some in H2. lia. }
    pose proof (IH i r1 rm H1 Hm).
    replace (i + S d) with (S (i + d)) in H2 by lia.
    pose proof (steps_monotone c _ _ _ _ _ _ HE Hst (i + d) rm r2 Hm H2). lia.
Qed.

(** Once a generation records the optimum [GENE_LENGTH], every later
    generation records it too and [run_ga] returns it: with an elite the
    all-ones chromosome, once found, is never lost. *)
Theorem optimum_is_kept (s s' : rng_state)
    (history : list GenerationRecord) (best_solution : list Z)
    (best_fitness : Z) (i : nat) (row : GenerationRecord) :
  1 ≤ ELITE c → ELITE c < POP_SIZE c →
  run_ga c s = Ok ((history, best_solution, best_fitness), s') →
  history !! i = Some row →
  Best_Fitness row = Z.of_nat (GENE_LENGTH c) →
  best_fitness = Z.of_nat (GENE_LENGTH c)
  ∧ Forall (λ b, b = 1%Z) best_solution
  ∧ ∀ j row', i ≤ j → history !! j = Some row' →
      Best_Fitness row' = Z.of_nat (GENE_LENGTH c).
Proof.
  intros HE1 HEN Hrun Hi Hopt.
  destruct (run_ga_bounds _ _ _ _ _ HEN Hrun) as (Hhist & Hlen & Hbits & Hf).
  pose proof Hrun as Hinv.
  apply run_ga_inv in Hinv
    as (pop0 & s0 & trace & pop' & _ & Hst & _ & -> & j & Hj & Hg & Hfit).
  assert (is_max best_fitness (fitness pop')) as Hbest.
  { destruct (argmax_spec (fitness pop')) as (j' & m & Hj' & Hm & Hall & _).
    { intros Hnil. by rewrite Hnil in Hfit. }
    rewrite Hj in Hj'. injection Hj' as <-.
    rewrite Hfit in Hm. injection Hm as <-.
    split; [by eapply list_elem_of_lookup_2|done]. }
  pose proof (steps_history_le _ _ _ _ _ _ _ HE1 Hst Hbest) as Hdom.
  rewrite Forall_forall in Hdom, Hhist.
  assert (best_fitness = Z.of_nat (GENE_LENGTH c)) as Heq.
  { pose proof (Hdom row ltac:(by eapply list_elem_of_lookup_2)). lia. }
  split; [done|]. split.
  - unfold fitness in Hfit. rewrite list_lookup_fmap, Hg in Hfit.
    injection Hfit as Hsum. apply (row_sum_bits _ Hbits). lia.
  - intros k row' Hik Hk.
    pose proof (Hhist row' ltac:(by eapply list_elem_of_lookup_2)).
    replace k with (i + (k - i)) in Hk by lia.
    pose proof (steps_monotone_from _ _ _ _ _ _ HE1 Hst (k - i) i row row' Hi Hk).
    lia.
Qed.

End RunProperties.

(** *** On the small run *)

Lemma run_ga_returns_first_best_witness :
  ∃ pop0 s0 trace pop' best_index,
    init_population (G := TapeGenerator) small_run (tape_default_rng 42)
    = Ok (pop0, s0)
    ∧ steps (G := TapeGenerator) (AS := StableSort) small_run
        0 pop0 s0 trace pop' small_outcome.2
    ∧ length trace = 3
    ∧ small_history = trace.*2
    ∧ pop' !! best_index = Some [1; 1; 1; 1]%Z
    ∧ 4%Z = row_sum [1; 1; 1; 1]%Z
    ∧ (∀ g, g ∈ pop' → (row_sum g ≤ 4)%Z)
    ∧ (∀ k g, k < best_index → pop' !! k = Some g → (row_sum g < 4)%Z).
Proof.
  apply (run_ga_returns_first_best (G := TapeGenerator) (AS := StableSort)
           small_run _ _ _ _ _ small_run_Ok).
Defined.

Lemma run_ga_fitness_bounds_witness :
  Forall (λ row, (0 ≤ Best_Fitness row ≤ 4)%Z) small_history
  ∧ (0 ≤ small_outcome.1.2 ≤ 4)%Z.
Proof.
  destruct (run_ga_fitness_bounds (G := TapeGenerator) (AS := StableSort)
              small_run _ _ _ _ _ ltac:(simpl; lia) small_run_Ok)
    as (Hhist & _ & _ & Hf).
  split; [exact Hhist|exact Hf].
Defined.

Lemma returned_best_dominates_history_witness :
  Forall (λ row, (Best_Fitness row ≤ small_outcome.1.2)%Z) small_history.
Proof.
  apply (returned_best_dominates_history (G := TapeGenerator)
           (AS := StableSort) small_run _ _ _ _ _ ltac:(simpl; lia)
           small_run_Ok).
Defined.

Lemma average_below_best_witness :
  ∃ pop0 s0 trace pop',
    init_population (G := TapeGenerator) small_run (tape_default_rng 42)
    = Ok (pop0, s0)
    ∧ steps (G := TapeGenerator) (AS := StableSort) small_run
        0 pop0 s0 trace pop' small_outcome.2
    ∧ length trace = 3
    ∧ small_history = trace.*2
    ∧ Forall (λ pr, (exact_mean (fitness pr.1)
                     <= inject_Z (Best_Fitness pr.2))%Q) trace.
Proof.
  apply (average_below_best (G := TapeGenerator) (AS := StableSort)
           small_run _ _ _ _ _ small_run_Ok).
Defined.


(** Four rows and four elites. *)
Definition all_elites : Config :=
  {| POP_SIZE := 4; GENE_LENGTH := 4; MAX_GEN := 3; PC := 9 # 10;
     PM := 1 # 10; ELITE := 4; TOUR_K := 2; SEED := 42 |}.

Lemma optimum_is_kept_witness :
  small_outcome.1.2 = 4%Z ∧ Forall (λ b, b = 1%Z) small_outcome.1.1.2.
Proof.
  destruct (optimum_is_kept (G := TapeGenerator) (AS := StableSort)
              small_run _ _ _ _ _ 0
              {| Generation := 1; Best_Fitness := 4;
                 Average_Fitness := float64_quotient 9 4 |}
              ltac:(simpl; lia) ltac:(simpl; lia) small_run_Ok
              eq_refl eq_refl) as (Hf & Hones & _).
  split; [exact Hf|exact Hones].
Defined.

Lemma too_many_elites_witness :
  run_ga (G := TapeGenerator) (AS := StableSort) all_elites
    (tape_default_rng 42)
  = Raise ValueError.
Proof.
  apply (too_many_elites (G := TapeGenerator) (AS := StableSort) all_elites);
    simpl; lia.
Defined.

(** ** The chromosome as the dashboard prints it *)

From Stdlib Require DecimalString.
From Stdlib Require Import Ascii.

(** [str(n)] of an integer: its decimal digits, with a minus sign. *)
Definition str_of_int (z : Z) : string :=
  DecimalString.NilZero.string_of_int (Z.to_int z).

(** ["".join(best_solution.astype(str))] *)
Definition render_chromosome (best_solution : list Z) : string :=
  String.concat "" (str_of_int <$> best_solution).

Example render_chromosome_digits :
  render_chromosome [1; 0; 1; 1]%Z = "1011"
  ∧ render_chromosome [12; -3]%Z = "12-3".
Proof. split; reflexivity. Qed.

Lemma append_empty_r (x : string) : (x +:+ "")%string = x.
Proof.
  induction x as [|a x IH]; [reflexivity|].
  change (String a (x +:+ "") = String a x). by f_equal.
Qed.

Lemma concat_empty_cons (x : string) (xs : list string) :
  String.concat "" (x :: xs) = (x +:+ String.concat "" xs)%string.
Proof.
  destruct xs as [|y xs]; [|reflexivity].
  symmetry. apply append_empty_r.
Qed.

Lemma render_chromosome_cons (b : Z) (row : list Z) :
  is_bit b →
  render_chromosome (b :: row)
  = String (if (b =? 0)%Z then "0"%char else "1"%char) (render_chromosome row).
Proof.
  intros Hb. unfold render_chromosome. rewrite fmap_cons, concat_empty_cons.
  destruct Hb as [-> | ->]; reflexivity.
Qed.

(** A row of bits is printed as one character per gene, and two rows of
    bits that print alike are the same row: the text on the dashboard
    identifies the chromosome. *)
Theorem render_chromosome_bits (row : list Z) :
  Forall is_bit row →
  String.length (render_chromosome row) = length row
  ∧ ∀ row', Forall is_bit row' →
      render_chromosome row' = render_chromosome row → row' = row.
Proof.
  induction 1 as [|b row Hb Hrow [IHlen IHinj]].
  - split; [done|]. intros row' Hrow'. destruct Hrow' as [|b' row' Hb' _];
      [done|]. rewrite (render_chromosome_cons b' row' Hb'). done.
  - rewrite (render_chromosome_cons b row Hb). split; [simpl; by rewrite IHlen|].
    intros row' Hrow'. destruct Hrow' as [|b' row' Hb' Hrow']; [done|].
    rewrite (render_chromosome_cons b' row' Hb'). intros [= Hc Hr].
    f_equal; [|by apply IHinj].
    destruct Hb as [-> | ->], Hb' as [-> | ->]; done.
Qed.

Lemma render_chromosome_bits_witness :
  String.length (render_chromosome [1; 0; 1; 1]%Z) = 4.
Proof.
  apply (render_chromosome_bits [1; 0; 1; 1]%Z).
  unfold is_bit. repeat constructor; tauto.
Defined.
